(** * Chunked playback engine of [src/App.tsx]

    A shallow embedding of the [App] component: its React state, its refs
    (the sounding source node and the audio cache), the callbacks it hands
    to the control bar, and its effects.

    The component is event driven.  One _event_ is a user command, the
    settlement of a pending [getAudioBufferForChunk] promise, or the
    [ended] notification of a buffer source.  Each event runs the matching
    callback against the state of the last render, queues its state
    updates, and then re-renders: a render re-evaluates [useCallback] and
    runs every effect whose dependency array changed; effects may queue
    further updates, which cause a further render.

    Closures matter in this component.  [playChunk] is memoised with
    [useCallback(..., [chunks, selectedVoice])], so the [isPlaying] and
    [activeChunkIndex] it reads are those of the render in which [chunks]
    or [selectedVoice] last changed.  The embedding keeps the captured
    variables of that closure explicitly ([Closure]).

    Left out: the lazily created [AudioContext] ([initAudioContext]), the
    unmount clean-up effect and the JSX.  Calls into the Web Audio API
    are taken to succeed, and a node that was stopped is taken not to
    deliver [ended] any more. *)

From Stdlib Require Import Ascii.
From stdpp Require Import base numbers list strings gmap pretty.

Local Open Scope string_scope.
Local Open Scope Z_scope.

(** ** [src/types.ts] *)

Inductive Gender := Male | Female.

Record VoiceOption := {
  name : string;
  id : string;
  gender : Gender;
}.

Definition VOICE_OPTIONS : list VoiceOption :=
  [ {| name := "Puck";   id := "Puck";   gender := Male |};
    {| name := "Charon"; id := "Charon"; gender := Male |};
    {| name := "Kore";   id := "Kore";   gender := Female |};
    {| name := "Fenrir"; id := "Fenrir"; gender := Male |};
    {| name := "Zephyr"; id := "Zephyr"; gender := Female |} ].

(** ** JavaScript built-ins used by the component *)

(** Strings are sequences of bytes; a text is held in its UTF-8 encoding
    (as a string literal of this file is).

    [String.prototype.trim] strips the WhiteSpace and LineTerminator code
    points of ECMAScript from both ends.  These are, with their UTF-8
    encodings:
    - U+0009 .. U+000D (TAB, LF, VT, FF, CR) and U+0020: one byte each;
    - U+00A0: C2 A0;
    - U+1680: E1 9A 80;
    - U+2000 .. U+200A: E2 80 80 .. E2 80 8A;
    - U+2028, U+2029, U+202F: E2 80 A8, E2 80 A9, E2 80 AF;
    - U+205F: E2 81 9F;
    - U+3000: E3 80 80;
    - U+FEFF: EF BB BF. *)
Definition isWhiteSpace (c : ascii) : bool :=
  let n := nat_of_ascii c in
  ((9 <=? n)%nat && (n <=? 13)%nat) || (n =? 32)%nat.

Definition isWhiteSpace2 (c1 c2 : ascii) : bool :=
  (nat_of_ascii c1 =? 194)%nat && (nat_of_ascii c2 =? 160)%nat.

Definition isWhiteSpace3 (c1 c2 c3 : ascii) : bool :=
  let a := nat_of_ascii c1 in
  let b := nat_of_ascii c2 in
  let c := nat_of_ascii c3 in
  ((a =? 225) && (b =? 154) && (c =? 128))%nat
  || ((a =? 226) && (b =? 128)
      && (((128 <=? c) && (c <=? 138)) || (c =? 168) || (c =? 169) || (c =? 175)))%nat
  || ((a =? 226) && (b =? 129) && (c =? 159))%nat
  || ((a =? 227) && (b =? 128) && (c =? 128))%nat
  || ((a =? 239) && (b =? 187) && (c =? 191))%nat.

(** [trimStart]: the leading white space code points are dropped. *)
Fixpoint trimStart (s : string) : string :=
  match s with
  | String.String c1 s1 =>
      if isWhiteSpace c1 then trimStart s1
      else
        match s1 with
        | String.String c2 s2 =>
            if isWhiteSpace2 c1 c2 then trimStart s2
            else
              match s2 with
              | String.String c3 s3 =>
                  if isWhiteSpace3 c1 c2 c3 then trimStart s3 else s
              | String.EmptyString => s
              end
        | String.EmptyString => s
        end
  | String.EmptyString => String.EmptyString
  end.

(** The same on the reversed string, where the bytes of a code point
    come last byte first. *)
Fixpoint trimStart_reversed (s : string) : string :=
  match s with
  | String.String c1 s1 =>
      if isWhiteSpace c1 then trimStart_reversed s1
      else
        match s1 with
        | String.String c2 s2 =>
            if isWhiteSpace2 c2 c1 then trimStart_reversed s2
            else
              match s2 with
              | String.String c3 s3 =>
                  if isWhiteSpace3 c3 c2 c1 then trimStart_reversed s3 else s
              | String.EmptyString => s
              end
        | String.EmptyString => s
        end
  | String.EmptyString => String.EmptyString
  end.

Definition trimEnd (s : string) : string :=
  String.rev (trimStart_reversed (String.rev s)).

Definition trim (s : string) : string := trimEnd (trimStart s).

(** The string with the given bytes. *)
Definition bytes (l : list nat) : string :=
  foldr (λ n s, String.String (ascii_of_nat n) s) String.EmptyString l.

(** [arr.length] as a JS number. *)
Definition len {A} (l : list A) : Z := Z.of_nat (length l).

(** [arr[i]]; [None] is [undefined]. *)
Definition at_index {A} (l : list A) (i : Z) : option A :=
  if i <? 0 then None else l !! Z.to_nat i.

(** ** State of the component *)

Inductive Mode := edit | read.

Global Instance Mode_eq_dec : EqDecision Mode.
Proof. solve_decision. Defined.

(** An opaque decoded [AudioBuffer], identified by a tag. *)
Definition AudioBuffer := nat.

(** The [useState] variables, as seen by one render.  [chunksRef] is the
    identity of the array object held in [chunks]: [useCallback]
    compares its dependency [chunks] by identity, and every [setChunks] of
    the component stores a freshly allocated array. *)
Record RState := {
  text : string;
  selectedVoice : string;
  isLoading : bool;
  isPlaying : bool;
  error : option string;
  mode : Mode;
  chunks : list string;
  chunksRef : nat;
  activeChunkIndex : Z;
}.

(** The variables captured by the memoised [playChunk] (and by the
    [getAudioBufferForChunk] and [onended] closures created under it). *)
Record Closure := {
  c_chunks : list string;
  c_selectedVoice : string;
  c_isPlaying : bool;
  c_activeChunkIndex : Z;
}.

Definition closure_of (r : RState) : Closure :=
  {| c_chunks := chunks r; c_selectedVoice := selectedVoice r;
     c_isPlaying := isPlaying r; c_activeChunkIndex := activeChunkIndex r |}.

(** A buffer source created by [playChunk]: its buffer and what its
    [onended] handler closes over. *)
Record Source := {
  src_buffer : AudioBuffer;
  src_index : Z;
  src_env : Closure;
}.

(** Who awaits a pending [getAudioBufferForChunk]: [playChunk] itself
    (line 108) or the detached prefetch with its [.catch] (line 145). *)
Inductive Caller := ActiveChunk | PrefetchNext.

(** A call of [getAudioBufferForChunk] suspended at [generateSpeech] /
    [decodeAudioData]. *)
Record Fetch := {
  f_caller : Caller;
  f_index : Z;
  f_env : Closure;
}.

(** How synthesis and decoding settle: a decoded buffer, or a rejection
    carrying [err.message] (empty when the error has none). *)
Inductive Settlement := Resolved (b : AudioBuffer) | Rejected (message : string).

(** The component instance together with the part of its environment it
    acts on.  [st] is the React state including queued updates;
    [sounding] lists the started buffer sources that have neither been
    stopped nor ended, by node number; [inflight] the pending fetches;
    [synthLog] the calls made to [generateSpeech]. *)
Record World := {
  st : RState;
  playChunkEnv : Closure;
  sourceNodeRef : option nat;
  audioCacheRef : gmap string AudioBuffer;
  nextNode : nat;
  sounding : list (nat * Source);
  inflight : list Fetch;
  synthLog : list (option string * string);
}.

(** *** State setters *)

Definition with_st (f : RState → RState) (w : World) : World :=
  {| st := f (st w); playChunkEnv := playChunkEnv w;
     sourceNodeRef := sourceNodeRef w; audioCacheRef := audioCacheRef w;
     nextNode := nextNode w; sounding := sounding w; inflight := inflight w;
     synthLog := synthLog w |}.

Definition setText (t : string) : World → World :=
  with_st (λ r, {| text := t; selectedVoice := selectedVoice r;
    isLoading := isLoading r; isPlaying := isPlaying r; error := error r;
    mode := mode r; chunks := chunks r; chunksRef := chunksRef r;
    activeChunkIndex := activeChunkIndex r |}).

Definition setSelectedVoice (v : string) : World → World :=
  with_st (λ r, {| text := text r; selectedVoice := v;
    isLoading := isLoading r; isPlaying := isPlaying r; error := error r;
    mode := mode r; chunks := chunks r; chunksRef := chunksRef r;
    activeChunkIndex := activeChunkIndex r |}).

Definition setIsLoading (b : bool) : World → World :=
  with_st (λ r, {| text := text r; selectedVoice := selectedVoice r;
    isLoading := b; isPlaying := isPlaying r; error := error r;
    mode := mode r; chunks := chunks r; chunksRef := chunksRef r;
    activeChunkIndex := activeChunkIndex r |}).

Definition setIsPlaying (b : bool) : World → World :=
  with_st (λ r, {| text := text r; selectedVoice := selectedVoice r;
    isLoading := isLoading r; isPlaying := b; error := error r;
    mode := mode r; chunks := chunks r; chunksRef := chunksRef r;
    activeChunkIndex := activeChunkIndex r |}).

Definition setError (e : option string) : World → World :=
  with_st (λ r, {| text := text r; selectedVoice := selectedVoice r;
    isLoading := isLoading r; isPlaying := isPlaying r; error := e;
    mode := mode r; chunks := chunks r; chunksRef := chunksRef r;
    activeChunkIndex := activeChunkIndex r |}).

Definition setMode (m : Mode) : World → World :=
  with_st (λ r, {| text := text r; selectedVoice := selectedVoice r;
    isLoading := isLoading r; isPlaying := isPlaying r; error := error r;
    mode := m; chunks := chunks r; chunksRef := chunksRef r;
    activeChunkIndex := activeChunkIndex r |}).

(** [setChunks] always receives a new array, hence a new identity. *)
Definition setChunks (cs : list string) : World → World :=
  with_st (λ r, {| text := text r; selectedVoice := selectedVoice r;
    isLoading := isLoading r; isPlaying := isPlaying r; error := error r;
    mode := mode r; chunks := cs; chunksRef := S (chunksRef r);
    activeChunkIndex := activeChunkIndex r |}).

(** [setActiveChunkIndex(prev => f prev)]. *)
Definition setActiveChunkIndex (f : Z → Z) : World → World :=
  with_st (λ r, {| text := text r; selectedVoice := selectedVoice r;
    isLoading := isLoading r; isPlaying := isPlaying r; error := error r;
    mode := mode r; chunks := chunks r; chunksRef := chunksRef r;
    activeChunkIndex := f (activeChunkIndex r) |}).

(** *** Ref and environment setters *)

Definition set_playChunkEnv (c : Closure) (w : World) : World :=
  {| st := st w; playChunkEnv := c;
     sourceNodeRef := sourceNodeRef w; audioCacheRef := audioCacheRef w;
     nextNode := nextNode w; sounding := sounding w; inflight := inflight w;
     synthLog := synthLog w |}.

Definition set_audioCache (m : gmap string AudioBuffer) (w : World) : World :=
  {| st := st w; playChunkEnv := playChunkEnv w;
     sourceNodeRef := sourceNodeRef w; audioCacheRef := m;
     nextNode := nextNode w; sounding := sounding w; inflight := inflight w;
     synthLog := synthLog w |}.

Definition set_inflight (l : list Fetch) (w : World) : World :=
  {| st := st w; playChunkEnv := playChunkEnv w;
     sourceNodeRef := sourceNodeRef w; audioCacheRef := audioCacheRef w;
     nextNode := nextNode w; sounding := sounding w; inflight := l;
     synthLog := synthLog w |}.

Definition set_sounding (l : list (nat * Source)) (w : World) : World :=
  {| st := st w; playChunkEnv := playChunkEnv w;
     sourceNodeRef := sourceNodeRef w; audioCacheRef := audioCacheRef w;
     nextNode := nextNode w; sounding := l; inflight := inflight w;
     synthLog := synthLog w |}.

(** The node [n] stops sounding ([stop()], or its natural end). *)
Definition silence (n : nat) (l : list (nat * Source)) : list (nat * Source) :=
  filter (λ p, p.1 ≠ n) l.

(** ** The callbacks of [App] *)

(** [stopAudio], lines 67-77. *)
Definition stopAudio (w : World) : World :=
  match sourceNodeRef w with
  | Some n =>
      {| st := st w; playChunkEnv := playChunkEnv w;
         sourceNodeRef := None; audioCacheRef := audioCacheRef w;
         nextNode := nextNode w; sounding := silence n (sounding w);
         inflight := inflight w; synthLog := synthLog w |}
  | None => w
  end.

(** [`${selectedVoice}-${index}`], line 80. *)
Definition cacheKey (voice : string) (index : Z) : string :=
  voice +:+ "-" +:+ pretty index.

(** [getAudioBufferForChunk], lines 79-96, up to its first [await]: a
    cache hit returns the buffer; a miss calls [generateSpeech] and leaves
    the call pending. *)
Definition getAudioBufferForChunk (env : Closure) (caller : Caller)
    (index : Z) (w : World) : option AudioBuffer * World :=
  match audioCacheRef w !! cacheKey (c_selectedVoice env) index with
  | Some b => (Some b, w)
  | None =>
      (None,
       {| st := st w; playChunkEnv := playChunkEnv w;
          sourceNodeRef := sourceNodeRef w; audioCacheRef := audioCacheRef w;
          nextNode := nextNode w; sounding := sounding w;
          inflight := inflight w ++
            [ {| f_caller := caller; f_index := index; f_env := env |} ];
          synthLog := synthLog w ++
            [ (at_index (c_chunks env) index, c_selectedVoice env) ] |})
  end.

(** [source.start()] on a new node whose [onended] closes over [env] and
    [index], after [sourceNodeRef.current = source], lines 118-140. *)
Definition startSource (env : Closure) (index : Z) (b : AudioBuffer)
    (w : World) : World :=
  {| st := st w; playChunkEnv := playChunkEnv w;
     sourceNodeRef := Some (nextNode w); audioCacheRef := audioCacheRef w;
     nextNode := S (nextNode w);
     sounding := sounding w ++
       [ (nextNode w, {| src_buffer := b; src_index := index; src_env := env |}) ];
     inflight := inflight w; synthLog := synthLog w |}.

(** [playChunk] after [await getAudioBufferForChunk] has produced
    [buffer], lines 110-146. *)
Definition playChunk_resume (env : Closure) (index : Z) (buffer : AudioBuffer)
    (w : World) : World :=
  let w := stopAudio w in
  let w := startSource env index buffer w in
  let w := setIsLoading false w in
  if index + 1 <? len (c_chunks env)
  then (getAudioBufferForChunk env PrefetchNext (index + 1) w).2
  else w.

(** The [catch] block of [playChunk], lines 148-153. *)
Definition playChunk_catch (message : string) (w : World) : World :=
  let w := setError (Some ("Failed to load audio. " +:+ message)) w in
  let w := setIsLoading false w in
  setIsPlaying false w.

(** [playChunk], lines 98-154. *)
Definition playChunk (env : Closure) (index : Z) (w : World) : World :=
  if (index <? 0) || (len (c_chunks env) <=? index)
  then setIsPlaying false w
  else
    let w := setError None w in
    let w := setIsLoading true w in
    match getAudioBufferForChunk env ActiveChunk index w with
    | (Some buffer, w) => playChunk_resume env index buffer w
    | (None, w) => w
    end.

(** The rest of a pending [getAudioBufferForChunk] (line 94) followed by
    the continuation of whoever awaits it. *)
Definition settle (f : Fetch) (s : Settlement) (w : World) : World :=
  match s with
  | Resolved buffer =>
      let key := cacheKey (c_selectedVoice (f_env f)) (f_index f) in
      let w := set_audioCache (<[key := buffer]> (audioCacheRef w)) w in
      match f_caller f with
      | ActiveChunk => playChunk_resume (f_env f) (f_index f) buffer w
      | PrefetchNext => w
      end
  | Rejected message =>
      match f_caller f with
      | ActiveChunk => playChunk_catch message w
      | PrefetchNext => w
      end
  end.

(** [source.onended], lines 123-137. *)
Definition onended (s : Source) (w : World) : World :=
  if bool_decide (c_activeChunkIndex (src_env s) = src_index s)
     && c_isPlaying (src_env s)
  then
    if activeChunkIndex (st w) + 1 <? len (c_chunks (src_env s))
    then setActiveChunkIndex (λ prev, prev + 1) w
    else setActiveChunkIndex (λ prev, prev) (setIsPlaying false w)
  else w.

(** [handleNext], lines 191-197. *)
Definition handleNext (r : RState) (w : World) : World :=
  if activeChunkIndex r <? len (chunks r) - 1
  then
    let w := stopAudio w in
    let w := setActiveChunkIndex (λ prev, prev + 1) w in
    setIsPlaying true w
  else w.

(** [handlePrev], lines 199-205. *)
Definition handlePrev (r : RState) (w : World) : World :=
  if 0 <? activeChunkIndex r
  then
    let w := stopAudio w in
    let w := setActiveChunkIndex (λ prev, prev - 1) w in
    setIsPlaying true w
  else w.

(** [handleModeChange], lines 207-213. *)
Definition handleModeChange (newMode : Mode) (w : World) : World :=
  let w := setMode newMode w in
  match newMode with
  | edit => stopAudio (setIsPlaying false w)
  | read => w
  end.

(** ** Effects *)

(** Lines 42-47, dependencies [[text, mode]]. *)
Definition effect_invalidate (r : RState) (w : World) : World :=
  match mode r with
  | edit => set_audioCache ∅ (setChunks [] w)
  | read => w
  end.

(** Lines 50-54, dependencies [[selectedVoice]]. *)
Definition effect_voice (w : World) : World :=
  let w := stopAudio w in
  let w := setIsPlaying false w in
  set_audioCache ∅ w.

(** Lines 157-168, dependencies
    [[activeChunkIndex, isPlaying, mode, chunks.length]]. *)
Definition effect_playback (r : RState) (w : World) : World :=
  if isPlaying r && bool_decide (mode r = read) && (0 <? len (chunks r))
  then playChunk (playChunkEnv w) (activeChunkIndex r) w
  else stopAudio w.

(** ** Rendering *)

(** A dependency compared with its value at the previous render. *)
Definition changed {A} `{EqDecision A} (x y : A) : bool := bool_decide (x ≠ y).

(** One render of the state [st w], the previous render having seen [old]:
    [useCallback] keeps or replaces the memoised [playChunk], then the
    effects whose dependencies changed run in source order.  The effects
    read the rendered state; what they queue lands in [st]. *)
Definition render (old : RState) (w : World) : World :=
  let r := st w in
  let w :=
    if changed (chunksRef old) (chunksRef r)
       || changed (selectedVoice old) (selectedVoice r)
    then set_playChunkEnv (closure_of r) w else w in
  let w :=
    if changed (text old) (text r) || changed (mode old) (mode r)
    then effect_invalidate r w else w in
  let w :=
    if changed (selectedVoice old) (selectedVoice r)
    then effect_voice w else w in
  if changed (activeChunkIndex old) (activeChunkIndex r)
     || changed (isPlaying old) (isPlaying r)
     || changed (mode old) (mode r)
     || changed (len (chunks old)) (len (chunks r))
  then effect_playback r w else w.

(** Render, and render again what the effects queued, [fuel] times. *)
Fixpoint commit (fuel : nat) (old : RState) (w : World) : World :=
  match fuel with
  | O => w
  | S fuel => commit fuel (st w) (render old w)
  end.

(** Two renders always reach a state that renders to itself
    ([commit_settles] below). *)
Definition rerenders : nat := 2.

(** The first render: [useState] initial values, every effect runs. *)
Definition initial : World :=
  {| st := {| text := ""; selectedVoice := default "" (id <$> head VOICE_OPTIONS);
              isLoading := false; isPlaying := false; error := None;
              mode := edit; chunks := []; chunksRef := O;
              activeChunkIndex := 0 |};
     playChunkEnv :=
       {| c_chunks := []; c_selectedVoice := default "" (id <$> head VOICE_OPTIONS);
          c_isPlaying := false; c_activeChunkIndex := 0 |};
     sourceNodeRef := None; audioCacheRef := ∅; nextNode := O;
     sounding := []; inflight := []; synthLog := [] |}.

Definition mount : World :=
  let r := st initial in
  let w := effect_invalidate r initial in
  let w := effect_voice w in
  let w := effect_playback r w in
  commit rerenders r w.

(** ** Events *)

Inductive Event :=
  | TextChange (t : string)        (* [onTextChange={setText}] *)
  | VoiceChange (v : string)       (* [onVoiceChange={setSelectedVoice}] *)
  | PlayPause                      (* [onPlayPause={handlePlayPause}] *)
  | Next                           (* [onNext={handleNext}] *)
  | Prev                           (* [onPrev={handlePrev}] *)
  | ModeChange (m : Mode)          (* [onModeChange={handleModeChange}] *)
  | FetchSettled (n : nat) (s : Settlement)
                                   (* the [n]-th pending fetch settles *)
  | SourceEnded (n : nat).         (* node [n] plays to its end *)

(** ** Vocabulary of the properties *)

(** The dependencies of [useCallback] and of the effects. *)
Definition same_deps (r r' : RState) : Prop :=
  chunksRef r = chunksRef r' ∧ selectedVoice r = selectedVoice r'
  ∧ text r = text r' ∧ mode r = mode r'
  ∧ activeChunkIndex r = activeChunkIndex r' ∧ isPlaying r = isPlaying r'
  ∧ len (chunks r) = len (chunks r').

(** What [playChunk], the voice effect and the playback effect may
    queue: they never touch the text, the mode, the voice, the index or
    the chunks; [isPlaying] is kept or cleared. *)
Definition kept (r r' : RState) : Prop :=
  text r' = text r ∧ mode r' = mode r ∧ selectedVoice r' = selectedVoice r
  ∧ activeChunkIndex r' = activeChunkIndex r
  ∧ (isPlaying r' = isPlaying r ∨ isPlaying r' = false)
  ∧ chunks r' = chunks r ∧ chunksRef r' = chunksRef r.

(** What a whole render may queue: as [kept], but the invalidation
    effect may also empty [chunks], in edit mode. *)
Definition queued (r r' : RState) : Prop :=
  text r' = text r ∧ mode r' = mode r ∧ selectedVoice r' = selectedVoice r
  ∧ activeChunkIndex r' = activeChunkIndex r
  ∧ (isPlaying r' = isPlaying r ∨ isPlaying r' = false)
  ∧ ((chunks r' = chunks r ∧ chunksRef r' = chunksRef r) ∨ mode r = edit).

(** The active index is a valid position in the chunk sequence. *)
Definition in_bounds (r : RState) : Prop :=
  0 ≤ activeChunkIndex r < len (chunks r).

(** Whatever sounds is the node held by [sourceNodeRef]. *)
Definition single_source (w : World) : Prop :=
  sounding w = [] ∨ ∃ n s, sounding w = [(n, s)] ∧ sourceNodeRef w = Some n.

(** [w'] has the sounding nodes and the node ref of [w]. *)
Definition same_audio (w w' : World) : Prop :=
  sounding w' = sounding w ∧ sourceNodeRef w' = sourceNodeRef w.

(** What sounds, as (node, buffer, index of the [playChunk] call). *)
Definition heard (w : World) : list (nat * AudioBuffer * Z) :=
  (λ p, (p.1, src_buffer p.2, src_index p.2)) <$> sounding w.

(** The pending fetches, as (caller, voice, index). *)
Definition pending (w : World) : list (Caller * string * Z) :=
  (λ f, (f_caller f, c_selectedVoice (f_env f), f_index f)) <$> inflight w.

(** The chunks and the voice captured by the memoised [playChunk] are
    those of the state. *)
Definition coherent (w : World) : Prop :=
  c_chunks (playChunkEnv w) = chunks (st w)
  ∧ c_selectedVoice (playChunkEnv w) = selectedVoice (st w).

(** A fetch asks for a chunk that exists in the array it was given. *)
Definition fetch_in_bounds (f : Fetch) : Prop :=
  0 ≤ f_index f < len (c_chunks (f_env f)).

(** Every pending fetch is in bounds and [generateSpeech] was never
    handed [undefined] as its text. *)
Definition fetches_defined (w : World) : Prop :=
  Forall fetch_in_bounds (inflight w)
  ∧ Forall (λ call, is_Some call.1) (synthLog w).

(** When [isLoading] is set, a fetch awaited by [playChunk] is pending. *)
Definition loading_backed (w : World) : Prop :=
  isLoading (st w) = true →
  ∃ f, f ∈ inflight w ∧ f_caller f = ActiveChunk.

(** [w'] has issued and settled no fetch since [w], and is silent if [w]
    was. *)
Definition quiet (w w' : World) : Prop :=
  inflight w' = inflight w ∧ synthLog w' = synthLog w
  ∧ (sounding w = [] → sounding w' = []).

(** The string contains the separator ["-"] of the cache keys. *)
Fixpoint has_dash (s : string) : bool :=
  match s with
  | String.String c s' => bool_decide (c = "-"%char) || has_dash s'
  | String.EmptyString => false
  end.

(** Evaluates a closed statement about a concrete session. *)
Ltac evaluate :=
  vm_compute;
  repeat match goal with |- _ ∧ _ => split end;
  first [ reflexivity | discriminate | lia
        | left; reflexivity
        | right; eexists _, _; split; reflexivity ].

(** A sample splitter for the examples: one chunk per word. *)
Definition sampleSplit (t : string) : list string := String.words t.

Section Engine.

(** [splitTextIntoChunks] of [utils/textHelper], an external collaborator. *)
Variable splitTextIntoChunks : string → list string.

(** [handlePlayPause], lines 170-189. *)
Definition handlePlayPause (r : RState) (w : World) : World :=
  if bool_decide (trim (text r) = "")
  then setError (Some "Please enter text to read.") w
  else
    match mode r with
    | edit =>
        let newChunks := splitTextIntoChunks (text r) in
        if bool_decide (len newChunks = 0) then w
        else
          let w := setChunks newChunks w in
          let w := setActiveChunkIndex (λ _, 0) w in
          let w := setMode read w in
          setIsPlaying true w
    | read => setIsPlaying (negb (isPlaying r)) w
    end.

(** The callback an event runs, against the last rendered state. *)
Definition dispatch (e : Event) (w : World) : World :=
  let r := st w in
  match e with
  | TextChange t => setText t w
  | VoiceChange v => setSelectedVoice v w
  | PlayPause => handlePlayPause r w
  | Next => handleNext r w
  | Prev => handlePrev r w
  | ModeChange m => handleModeChange m w
  | FetchSettled n s =>
      match inflight w !! n with
      | Some f => settle f s (set_inflight (delete n (inflight w)) w)
      | None => w
      end
  | SourceEnded n =>
      match list_find (λ p, p.1 = n) (sounding w) with
      | Some (_, (_, s)) => onended s (set_sounding (silence n (sounding w)) w)
      | None => w
      end
  end.

Definition step (w : World) (e : Event) : World :=
  commit rerenders (st w) (dispatch e w).

Definition run (w : World) (es : list Event) : World := foldl step w es.

(** * Properties *)

(** ** What the callbacks leave alone *)

Lemma changed_same {A} `{EqDecision A} (x : A) : changed x x = false.
Proof. unfold changed. by rewrite bool_decide_eq_false_2; [|intros []]. Qed.

Lemma changed_true {A} `{EqDecision A} (x y : A) : changed x y = true ↔ x ≠ y.
Proof. unfold changed. apply bool_decide_eq_true. Qed.

Lemma changed_false {A} `{EqDecision A} (x y : A) : changed x y = false ↔ x = y.
Proof.
  unfold changed. rewrite bool_decide_eq_false. split; [|by intros -> []].
  intros Hn. by destruct (decide (x = y)).
Qed.

Lemma st_stopAudio w : st (stopAudio w) = st w.
Proof. unfold stopAudio. by destruct (sourceNodeRef w). Qed.

Lemma st_getAudioBufferForChunk env c i w :
  st (getAudioBufferForChunk env c i w).2 = st w.
Proof. unfold getAudioBufferForChunk. by destruct (_ !! _). Qed.

Lemma kept_refl r : kept r r.
Proof. unfold kept; naive_solver. Qed.

Lemma kept_trans r1 r2 r3 : kept r1 r2 → kept r2 r3 → kept r1 r3.
Proof.
  intros (?&?&?&?&Hp&?&?) (?&?&?&?&Hp'&?&?).
  repeat split; try congruence.
  destruct Hp, Hp'; first [left; congruence | right; congruence].
Qed.

Lemma kept_queued r r' : kept r r' → queued r r'.
Proof. intros (?&?&?&?&?&?&?). repeat split; auto. Qed.

Lemma queued_refl r : queued r r.
Proof. apply kept_queued, kept_refl. Qed.

Lemma queued_kept r1 r2 r3 : queued r1 r2 → kept r2 r3 → queued r1 r3.
Proof.
  intros (?&?&?&?&Hp&Hc) (?&?&?&?&Hp'&?&?).
  unfold queued. split_and!; try congruence.
  destruct Hp, Hp'; first [left; congruence | right; congruence].
Qed.

Lemma kept_playChunk_resume env i b w :
  kept (st w) (st (playChunk_resume env i b w)).
Proof.
  unfold playChunk_resume. case_match; rewrite ?st_getAudioBufferForChunk;
    cbn; rewrite st_stopAudio; unfold kept; cbn; naive_solver.
Qed.

Lemma kept_playChunk env i w : kept (st w) (st (playChunk env i w)).
Proof.
  unfold playChunk. case_match; [unfold kept; cbn; naive_solver|].
  destruct (getAudioBufferForChunk _ _ _ _) as [[b|] w'] eqn:E;
    replace w' with (getAudioBufferForChunk env ActiveChunk i
      (setIsLoading true (setError None w))).2 by (by rewrite E).
  - eapply kept_trans; [|apply kept_playChunk_resume].
    rewrite st_getAudioBufferForChunk. unfold kept; cbn; naive_solver.
  - rewrite st_getAudioBufferForChunk. unfold kept; cbn; naive_solver.
Qed.

Lemma kept_effect_playback r w : kept (st w) (st (effect_playback r w)).
Proof.
  unfold effect_playback. case_match.
  - apply kept_playChunk.
  - rewrite st_stopAudio. apply kept_refl.
Qed.

Lemma kept_effect_voice w : kept (st w) (st (effect_voice w)).
Proof.
  unfold effect_voice. cbn. rewrite st_stopAudio. unfold kept; cbn; naive_solver.
Qed.

Lemma queued_effect_invalidate w :
  queued (st w) (st (effect_invalidate (st w) w)).
Proof.
  unfold effect_invalidate. destruct (mode (st w)) eqn:E.
  - unfold queued; cbn; naive_solver.
  - apply queued_refl.
Qed.

Lemma queued_render old w : queued (st w) (st (render old w)).
Proof.
  unfold render.
  set (w1 := if _ || _ then set_playChunkEnv _ w else w).
  assert (H1 : st w1 = st w) by (subst w1; by case_match).
  set (w2 := if _ || _ then effect_invalidate _ w1 else w1).
  assert (H2 : queued (st w) (st w2)).
  { subst w2. case_match; rewrite <- H1; [apply queued_effect_invalidate|apply queued_refl]. }
  set (w3 := if changed (selectedVoice old) _ then effect_voice w2 else w2).
  assert (H3 : queued (st w) (st w3)).
  { subst w3. case_match; [|done]. eapply queued_kept; [done|apply kept_effect_voice]. }
  case_match; [|done]. eapply queued_kept; [done|apply kept_effect_playback].
Qed.

(** While neither the text nor the mode changes, the invalidation effect
    stays out and the chunks survive the render. *)
Lemma kept_render old w :
  text old = text (st w) → mode old = mode (st w) →
  kept (st w) (st (render old w)).
Proof.
  intros Ht Hm. unfold render. rewrite Ht, Hm, !changed_same. cbn [orb].
  set (w1 := if _ || _ then set_playChunkEnv _ w else w).
  assert (H1 : st w1 = st w) by (subst w1; by case_match).
  set (w3 := if changed (selectedVoice old) _ then effect_voice w1 else w1).
  assert (H3 : kept (st w) (st w3)).
  { subst w3. rewrite <- H1. case_match; [apply kept_effect_voice|apply kept_refl]. }
  case_match; [|done]. eapply kept_trans; [done|apply kept_effect_playback].
Qed.

Lemma kept_commit n old w :
  text old = text (st w) → mode old = mode (st w) →
  kept (st w) (st (commit n old w)).
Proof.
  revert old w. induction n as [|n IH]; intros old w Ht Hm; [apply kept_refl|].
  cbn. pose proof (kept_render old w Ht Hm) as K.
  eapply kept_trans; [exact K|]. destruct K as (?&?&_). by apply IH.
Qed.

(** ** Re-rendering terminates *)

Lemma same_deps_refl r : same_deps r r.
Proof. by repeat split. Qed.

(** A render in which no dependency changed does nothing. *)
Lemma render_idle old w : same_deps old (st w) → render old w = w.
Proof.
  intros (Hc & Hv & Ht & Hm & Hi & Hp & Hl). unfold render.
  rewrite Hc, Hv, Ht, Hm, Hi, Hp, Hl, !changed_same. done.
Qed.

Lemma commit_idle n old w : same_deps old (st w) → commit n old w = w.
Proof.
  revert old. induction n as [|n IH]; intros old H; [done|].
  cbn. rewrite (render_idle _ _ H). apply IH, same_deps_refl.
Qed.

(** What a first render queued only makes the playback effect of the
    second render stop audio; the second render queues nothing. *)
Lemma render_again old w :
  st (render (st w) (render old w)) = st (render old w).
Proof.
  pose proof (queued_render old w) as (Ht & Hm & Hv & Hi & Hp & Hc).
  set (w1 := render old w) in *. unfold render at 1.
  rewrite <- Ht, <- Hm, <- Hv, <- Hi, !changed_same. cbn [orb].
  rewrite !orb_false_r.
  set (w1' := if changed (chunksRef _) _ then _ else w1).
  assert (H1 : st w1' = st w1) by (subst w1'; by case_match).
  case_match eqn:E; [|done].
  unfold effect_playback.
  assert (isPlaying (st w1) && bool_decide (mode (st w1) = read)
          && (0 <? len (chunks (st w1))) = false) as ->.
  { apply orb_true_iff in E as [E|E]; apply changed_true in E.
    - destruct Hp as [Hp|Hp]; [congruence|]. by rewrite Hp.
    - destruct Hc as [[Hc _]|Hc]; [congruence|].
      rewrite Hm, Hc. cbn. by rewrite andb_false_r. }
  by rewrite st_stopAudio.
Qed.

(** [rerenders] renders are enough: any further render is idle. *)
Lemma commit_settles n old w :
  commit (rerenders + n) old w = commit rerenders old w.
Proof.
  cbn. apply commit_idle. rewrite render_again. apply same_deps_refl.
Qed.

(** ** The play/pause command on text that cannot be read *)

(** An event whose callback only queued updates outside every
    dependency array causes no effect to run. *)
Lemma step_idle w e :
  same_deps (st w) (st (dispatch e w)) → step w e = dispatch e w.
Proof. apply commit_idle. Qed.

(** C10.  Play/pause on empty or white-space-only text sets the error
    message "Please enter text to read." and changes nothing else: the
    mode, the chunks, the active index, the playing flag and the cache
    stay as they were, so reading mode is not entered. *)
Theorem C10_blank_text_only_sets_error (w : World) :
  trim (text (st w)) = "" →
  step w PlayPause = setError (Some "Please enter text to read.") w
  ∧ error (st (step w PlayPause)) = Some "Please enter text to read."
  ∧ mode (st (step w PlayPause)) = mode (st w)
  ∧ chunks (st (step w PlayPause)) = chunks (st w)
  ∧ activeChunkIndex (st (step w PlayPause)) = activeChunkIndex (st w)
  ∧ isPlaying (st (step w PlayPause)) = isPlaying (st w)
  ∧ audioCacheRef (step w PlayPause) = audioCacheRef w.
Proof.
  intros Hblank.
  assert (E : step w PlayPause = setError (Some "Please enter text to read.") w).
  { rewrite step_idle; cbn; unfold handlePlayPause;
      rewrite bool_decide_eq_true_2 by done; [done|by repeat split]. }
  rewrite E. done.
Qed.

(** C9, as the code has it.  Play/pause in edit mode on text that is not
    blank but splits into zero chunks changes nothing at all: the mode
    stays [edit], the chunks, the active index and the playing flag are
    unchanged, and no error message is set. *)
Theorem C9_empty_split_is_silent_noop (w : World) :
  trim (text (st w)) ≠ "" →
  mode (st w) = edit →
  splitTextIntoChunks (text (st w)) = [] →
  step w PlayPause = w.
Proof.
  intros Hblank Hmode Hsplit.
  assert (E : dispatch PlayPause w = w).
  { cbn. unfold handlePlayPause.
    rewrite bool_decide_eq_false_2 by done. rewrite Hmode, Hsplit. done. }
  rewrite step_idle; rewrite E; [done|apply same_deps_refl].
Qed.

(** ** Skipping forward and backward *)

(** [handleNext] and [handlePrev] move the index by one inside the chunk
    sequence and leave the text, the mode and the chunks alone. *)
Lemma seek_dispatch w e :
  e = Next ∨ e = Prev → in_bounds (st w) →
  text (st (dispatch e w)) = text (st w)
  ∧ mode (st (dispatch e w)) = mode (st w)
  ∧ chunks (st (dispatch e w)) = chunks (st w)
  ∧ in_bounds (st (dispatch e w)).
Proof.
  unfold in_bounds. intros [-> | ->] Hb; cbn.
  - unfold handleNext. destruct (Z.ltb_spec (activeChunkIndex (st w))
      (len (chunks (st w)) - 1)); [|done].
    cbn. rewrite st_stopAudio. split_and!; [done..|lia|lia].
  - unfold handlePrev. destruct (Z.ltb_spec 0 (activeChunkIndex (st w))); [|done].
    cbn. rewrite st_stopAudio. split_and!; [done..|lia|lia].
Qed.

Lemma seek_step w e :
  e = Next ∨ e = Prev → in_bounds (st w) →
  chunks (st (step w e)) = chunks (st w) ∧ in_bounds (st (step w e)).
Proof.
  intros He Hb. destruct (seek_dispatch w e He Hb) as (Ht & Hm & Hc & Hb').
  destruct (kept_commit rerenders (st w) (dispatch e w)) as (_&_&_&Hi&_&Hc'&_);
    [done..|].
  unfold step, in_bounds in *. rewrite Hi, Hc'. split; [done|lia].
Qed.

(** C4.  Over any sequence of next/prev commands the chunk sequence is
    unchanged and the active index stays within [0, N-1]; next at the
    last chunk and prev at the first chunk change nothing. *)
Theorem C4_seek_stays_in_bounds (w : World) (cmds : list Event) :
  Forall (λ e, e = Next ∨ e = Prev) cmds →
  0 ≤ activeChunkIndex (st w) < len (chunks (st w)) →
  (chunks (st (run w cmds)) = chunks (st w)
   ∧ 0 ≤ activeChunkIndex (st (run w cmds)) < len (chunks (st w)))
  ∧ (activeChunkIndex (st w) = len (chunks (st w)) - 1 → step w Next = w)
  ∧ (activeChunkIndex (st w) = 0 → step w Prev = w).
Proof.
  intros Hcmds Hb. split; [|split].
  - revert w Hb. induction Hcmds as [|e cmds He _ IH]; intros w Hb; [done|].
    change (run w (e :: cmds)) with (run (step w e) cmds).
    destruct (seek_step w e He Hb) as [Hc Hb'].
    destruct (IH (step w e) Hb') as [Hc'' Hb''].
    rewrite Hc in *. done.
  - intros Hlast. rewrite step_idle; cbn; unfold handleNext;
      rewrite Hlast, Z.ltb_irrefl; [done|apply same_deps_refl].
  - intros Hfirst. rewrite step_idle; cbn; unfold handlePrev;
      rewrite Hfirst, Z.ltb_irrefl; [done|apply same_deps_refl].
Qed.

(** ** One sounding source *)

Lemma single_source_same w w' : same_audio w w' → single_source w → single_source w'.
Proof. intros [Hs Hr]. unfold single_source. by rewrite Hs, Hr. Qed.

Lemma single_source_silent w : sounding w = [] → single_source w.
Proof. by left. Qed.

Lemma silence_self n s : silence n [(n, s)] = [].
Proof. unfold silence. cbn. by rewrite decide_False by (intros H; by apply H). Qed.

Lemma stopAudio_silent w : single_source w → sounding (stopAudio w) = [].
Proof.
  unfold stopAudio. intros [H | (n & s & H & Hr)].
  - destruct (sourceNodeRef w); cbn; by rewrite H.
  - rewrite Hr. cbn. rewrite H. apply silence_self.
Qed.

Lemma same_audio_getAudioBufferForChunk env c i w :
  same_audio w (getAudioBufferForChunk env c i w).2.
Proof. unfold getAudioBufferForChunk. by destruct (_ !! _). Qed.

(** Starting a buffer stops what was sounding: afterwards the new node
    alone sounds. *)
Lemma playChunk_resume_sounding env i b w :
  single_source w →
  sounding (playChunk_resume env i b w) =
    [ (nextNode w, {| src_buffer := b; src_index := i; src_env := env |}) ]
  ∧ sourceNodeRef (playChunk_resume env i b w) = Some (nextNode w).
Proof.
  intros H. apply stopAudio_silent in H. unfold playChunk_resume.
  assert (Hn : nextNode (stopAudio w) = nextNode w).
  { unfold stopAudio. by destruct (sourceNodeRef w). }
  case_match.
  - destruct (same_audio_getAudioBufferForChunk env PrefetchNext (i + 1)
      (setIsLoading false (startSource env i b (stopAudio w)))) as [-> ->].
    cbn. by rewrite H, Hn.
  - cbn. by rewrite H, Hn.
Qed.

Lemma single_source_playChunk_resume env i b w :
  single_source w → single_source (playChunk_resume env i b w).
Proof.
  intros H. destruct (playChunk_resume_sounding env i b w H) as [Hs Hr].
  right. eauto.
Qed.

Lemma single_source_stopAudio w : single_source w → single_source (stopAudio w).
Proof. intros H. by apply single_source_silent, stopAudio_silent. Qed.

Lemma single_source_playChunk env i w :
  single_source w → single_source (playChunk env i w).
Proof.
  intros H. unfold playChunk. case_match; [done|].
  destruct (getAudioBufferForChunk _ _ _ _) as [[b|] w'] eqn:E;
    replace w' with (getAudioBufferForChunk env ActiveChunk i
      (setIsLoading true (setError None w))).2 by (by rewrite E).
  - apply single_source_playChunk_resume.
    eapply single_source_same; [apply same_audio_getAudioBufferForChunk|done].
  - eapply single_source_same; [apply same_audio_getAudioBufferForChunk|done].
Qed.

Lemma single_source_render old w : single_source w → single_source (render old w).
Proof.
  intros H. unfold render.
  set (w1 := if _ || _ then set_playChunkEnv _ w else w).
  assert (H1 : single_source w1) by (subst w1; by case_match).
  set (w2 := if _ || _ then effect_invalidate _ w1 else w1).
  assert (H2 : single_source w2).
  { subst w2. case_match; [|done]. unfold effect_invalidate. by case_match. }
  set (w3 := if changed (selectedVoice old) _ then effect_voice w2 else w2).
  assert (H3 : single_source w3).
  { subst w3. case_match; [|done]. unfold effect_voice.
    eapply single_source_same; [|apply single_source_stopAudio, H2]. done. }
  case_match; [|done]. unfold effect_playback. case_match.
  - by apply single_source_playChunk.
  - by apply single_source_stopAudio.
Qed.

Lemma single_source_commit n old w :
  single_source w → single_source (commit n old w).
Proof.
  revert old w. induction n as [|n IH]; intros old w H; [done|].
  cbn. by apply IH, single_source_render.
Qed.

Lemma single_source_dispatch e w :
  single_source w → single_source (dispatch e w).
Proof.
  intros H. destruct e as [t|v| | | |m|n s|n]; cbn; try done.
  - unfold handlePlayPause. repeat case_match; done.
  - unfold handleNext. case_match; [|done].
    eapply single_source_same; [|apply single_source_stopAudio, H]. done.
  - unfold handlePrev. case_match; [|done].
    eapply single_source_same; [|apply single_source_stopAudio, H]. done.
  - unfold handleModeChange. destruct m; [|done].
    apply single_source_stopAudio. done.
  - destruct (inflight w !! n) as [f|]; [|done].
    unfold settle. destruct s, (f_caller f); try done.
    by apply single_source_playChunk_resume.
  - destruct (list_find _ _) as [[k [n' s]]|] eqn:E; [|done].
    apply list_find_Some in E as (Hk & Hn & _). cbn in Hn. subst n'.
    assert (single_source (set_sounding (silence n (sounding w)) w)) as H'.
    { destruct H as [H | (m & s' & H & Hr)]; [by rewrite H in Hk|].
      rewrite H in Hk. apply list_lookup_singleton_Some in Hk as [_ [= -> ->]].
      left. cbn. rewrite H. apply silence_self. }
    unfold onended. repeat case_match; done.
Qed.

Lemma single_source_step w e : single_source w → single_source (step w e).
Proof. intros H. by apply single_source_commit, single_source_dispatch. Qed.

Lemma single_source_run w es : single_source w → single_source (run w es).
Proof.
  revert w. induction es as [|e es IH]; intros w H; [done|].
  cbn. by apply IH, single_source_step.
Qed.

Lemma single_source_mount : single_source mount.
Proof. by left. Qed.

(** C3.  After any sequence of events from the mounted component at most
    one source is sounding, and starting a buffer leaves the newly
    started node as the only sounding one: whatever sounded before has
    been stopped. *)
Theorem C3_at_most_one_source_sounding (es : list Event) :
  (length (sounding (run mount es)) ≤ 1)%nat
  ∧ ∀ env i b,
      sounding (playChunk_resume env i b (run mount es)) =
        [ (nextNode (run mount es),
           {| src_buffer := b; src_index := i; src_env := env |}) ].
Proof.
  pose proof (single_source_run mount es single_source_mount) as H. split.
  - destruct H as [-> | (n & s & -> & _)]; cbn; lia.
  - intros env i b. by apply playChunk_resume_sounding.
Qed.

(** ** Settlement of a fetch *)

(** A render in which only [isPlaying] changed, to false: the playback
    effect stops audio, nothing more. *)
Lemma render_paused old w :
  chunksRef old = chunksRef (st w) → selectedVoice old = selectedVoice (st w) →
  text old = text (st w) → mode old = mode (st w) →
  activeChunkIndex old = activeChunkIndex (st w) →
  chunks old = chunks (st w) →
  isPlaying (st w) = false →
  render old w = if isPlaying old then stopAudio w else w.
Proof.
  intros Hc Hv Ht Hm Hi Hl Hp.
  unfold render. rewrite Hc, Hv, Ht, Hm, Hi, Hl, Hp, !changed_same. cbn [orb].
  destruct (isPlaying old); [|done]. cbn [changed]. cbn.
  unfold effect_playback. by rewrite Hp.
Qed.

Lemma commit_paused old w :
  chunksRef old = chunksRef (st w) → selectedVoice old = selectedVoice (st w) →
  text old = text (st w) → mode old = mode (st w) →
  activeChunkIndex old = activeChunkIndex (st w) →
  chunks old = chunks (st w) →
  isPlaying (st w) = false →
  commit rerenders old w = if isPlaying old then stopAudio w else w.
Proof.
  intros Hc Hv Ht Hm Hi Hl Hp. unfold rerenders, commit.
  rewrite (render_paused old w) by done.
  apply render_idle. destruct (isPlaying old);
    rewrite ?st_stopAudio; apply same_deps_refl.
Qed.

Lemma stopAudio_fetches w :
  inflight (stopAudio w) = inflight w ∧ synthLog (stopAudio w) = synthLog w
  ∧ audioCacheRef (stopAudio w) = audioCacheRef w.
Proof. unfold stopAudio. by destruct (sourceNodeRef w). Qed.

(** C7.  When the fetch awaited by [playChunk] is rejected, the error
    message is set, [isLoading] and [isPlaying] become false, and nothing
    is retried: no fetch is issued and [generateSpeech] is not called. *)
Theorem C7_fetch_error_halts_playback (w : World) (n : nat) (f : Fetch)
    (message : string) :
  inflight w !! n = Some f →
  f_caller f = ActiveChunk →
  error (st (step w (FetchSettled n (Rejected message))))
    = Some ("Failed to load audio. " +:+ message)
  ∧ isLoading (st (step w (FetchSettled n (Rejected message)))) = false
  ∧ isPlaying (st (step w (FetchSettled n (Rejected message)))) = false
  ∧ inflight (step w (FetchSettled n (Rejected message))) = delete n (inflight w)
  ∧ synthLog (step w (FetchSettled n (Rejected message))) = synthLog w.
Proof.
  intros Hn Hf. unfold step. cbn [dispatch]. rewrite Hn. unfold settle. rewrite Hf.
  rewrite commit_paused by done.
  destruct (isPlaying (st w)); [|done].
  rewrite st_stopAudio.
  destruct (stopAudio_fetches (playChunk_catch message
    (set_inflight (delete n (inflight w)) w))) as (-> & -> & _).
  done.
Qed.

(** ** Where the audio cache is emptied *)

Lemma cache_getAudioBufferForChunk env c i w :
  audioCacheRef (getAudioBufferForChunk env c i w).2 = audioCacheRef w.
Proof. unfold getAudioBufferForChunk. by destruct (_ !! _). Qed.

Lemma cache_playChunk_resume env i b w :
  audioCacheRef (playChunk_resume env i b w) = audioCacheRef w.
Proof.
  unfold playChunk_resume. destruct (stopAudio_fetches w) as (_ & _ & H).
  case_match; rewrite ?cache_getAudioBufferForChunk; cbn; by rewrite H.
Qed.

Lemma cache_playChunk env i w :
  audioCacheRef (playChunk env i w) = audioCacheRef w.
Proof.
  unfold playChunk. case_match; [done|].
  destruct (getAudioBufferForChunk _ _ _ _) as [[b|] w'] eqn:E;
    replace w' with (getAudioBufferForChunk env ActiveChunk i
      (setIsLoading true (setError None w))).2 by (by rewrite E);
    rewrite ?cache_playChunk_resume, cache_getAudioBufferForChunk; done.
Qed.

Lemma cache_effect_playback r w :
  audioCacheRef (effect_playback r w) = audioCacheRef w.
Proof.
  unfold effect_playback. case_match; [apply cache_playChunk|].
  by destruct (stopAudio_fetches w) as (_ & _ & Hca).
Qed.

(** Only the invalidation effect and the voice effect write the cache
    during a render. *)
Lemma cache_render old w :
  text old = text (st w) → mode old = mode (st w) →
  selectedVoice old = selectedVoice (st w) →
  audioCacheRef (render old w) = audioCacheRef w.
Proof.
  intros Ht Hm Hv. unfold render. rewrite Ht, Hm, Hv, !changed_same.
  cbn [orb]. rewrite !orb_false_r.
  set (w1 := if changed (chunksRef old) _ then set_playChunkEnv _ w else w).
  assert (H1 : audioCacheRef w1 = audioCacheRef w) by (subst w1; by case_match).
  case_match; by rewrite ?cache_effect_playback.
Qed.

(** The invalidation effect, when it runs in edit mode, leaves the render
    with an empty cache. *)
Lemma cache_render_invalidate old w :
  mode (st w) = edit →
  text old ≠ text (st w) ∨ mode old ≠ mode (st w) →
  audioCacheRef (render old w) = ∅.
Proof.
  intros Hm Hch. unfold render.
  assert (changed (text old) (text (st w)) || changed (mode old) (mode (st w))
          = true) as ->.
  { apply orb_true_iff. destruct Hch; [left|right]; by apply changed_true. }
  set (w1 := if _ || _ then set_playChunkEnv _ w else w).
  unfold effect_invalidate. rewrite Hm.
  set (w2 := set_audioCache ∅ (setChunks [] w1)).
  set (w3 := if changed (selectedVoice old) _ then effect_voice w2 else w2).
  assert (H3 : audioCacheRef w3 = ∅) by (subst w3; by case_match).
  case_match; by rewrite ?cache_effect_playback.
Qed.

(** The render that follows a voice change: [playChunk] is re-memoised
    and the voice effect runs, alone. *)
Lemma render_voice w v :
  v ≠ selectedVoice (st w) →
  render (st w) (setSelectedVoice v w) =
    effect_voice
      (set_playChunkEnv (closure_of (st (setSelectedVoice v w)))
         (setSelectedVoice v w)).
Proof.
  intros Hv. unfold render. cbn [st setSelectedVoice with_st selectedVoice
    text mode chunksRef activeChunkIndex isPlaying chunks].
  rewrite !changed_same. cbn [orb].
  assert (changed (selectedVoice (st w)) v = true) as ->; [|done].
  apply changed_true. congruence.
Qed.

(** In read mode the invalidation effect does nothing, so a render that
    keeps the voice keeps the cache. *)
Lemma cache_render_read old w :
  mode (st w) = read → selectedVoice old = selectedVoice (st w) →
  audioCacheRef (render old w) = audioCacheRef w.
Proof.
  intros Hm Hv. unfold render. rewrite Hv, !changed_same.
  unfold effect_invalidate. rewrite Hm.
  set (w1 := if _ || _ then set_playChunkEnv _ w else w).
  assert (H1 : audioCacheRef w1 = audioCacheRef w) by (subst w1; by case_match).
  set (w2 := if _ || _ then w1 else w1).
  assert (H2 : audioCacheRef w2 = audioCacheRef w) by (subst w2; by case_match).
  case_match; by rewrite ?cache_effect_playback.
Qed.

(** The second render of an event never writes the cache. *)
Lemma cache_commit old w :
  audioCacheRef (commit rerenders old w) = audioCacheRef (render old w).
Proof.
  unfold rerenders, commit.
  destruct (queued_render old w) as (Ht & Hm & Hv & _).
  by apply cache_render.
Qed.

Lemma st_commit_queued old w : queued (st w) (st (commit rerenders old w)).
Proof.
  unfold rerenders, commit. rewrite render_again. apply queued_render.
Qed.

(** X24.  Where the code empties the cache.  A voice change empties it
    and clears [isPlaying], and issues no fetch while doing so.  Entering
    edit mode, and a text change in edit mode, empty it.  Starting to
    read (play/pause in edit mode on readable text) enters read mode with
    the new chunks and [activeChunkIndex = 0] and does not write the
    cache. *)
Theorem X24_where_the_cache_is_emptied (w : World) :
  (∀ v, v ≠ selectedVoice (st w) →
     audioCacheRef (step w (VoiceChange v)) = ∅
     ∧ isPlaying (st (step w (VoiceChange v))) = false
     ∧ inflight (step w (VoiceChange v)) = inflight w
     ∧ synthLog (step w (VoiceChange v)) = synthLog w)
  ∧ (mode (st w) = edit → trim (text (st w)) ≠ "" →
     splitTextIntoChunks (text (st w)) ≠ [] →
     mode (st (step w PlayPause)) = read
     ∧ chunks (st (step w PlayPause)) = splitTextIntoChunks (text (st w))
     ∧ activeChunkIndex (st (step w PlayPause)) = 0
     ∧ audioCacheRef (step w PlayPause) = audioCacheRef w)
  ∧ (mode (st w) = read → audioCacheRef (step w (ModeChange edit)) = ∅)
  ∧ (∀ t, mode (st w) = edit → t ≠ text (st w) →
     audioCacheRef (step w (TextChange t)) = ∅).
Proof.
  split; [|split; [|split]].
  - intros v Hv. unfold step, rerenders, commit. cbn [dispatch].
    rewrite (render_voice w v Hv).
    set (w1 := effect_voice _).
    assert (Hst : st w1 = st (setIsPlaying false (setSelectedVoice v w))).
    { subst w1. unfold effect_voice. cbn. by rewrite st_stopAudio. }
    rewrite render_paused; try (by rewrite Hst).
    assert (F : audioCacheRef w1 = ∅ ∧ inflight w1 = inflight w
                ∧ synthLog w1 = synthLog w).
    { subst w1. unfold effect_voice.
      destruct (stopAudio_fetches (set_playChunkEnv
        (closure_of (st (setSelectedVoice v w))) (setSelectedVoice v w)))
        as (Hfl & Hsl & _).
      cbn [audioCacheRef inflight synthLog set_audioCache setIsPlaying with_st].
      by rewrite Hfl, Hsl. }
    destruct F as (Fc & Fi & Fs).
    destruct (isPlaying _).
    + rewrite st_stopAudio, Hst.
      destruct (stopAudio_fetches w1) as (-> & -> & ->). done.
    + by rewrite Hst.
  - intros Hm Hblank Hsplit.
    assert (E : dispatch PlayPause w =
      setIsPlaying true (setMode read (setActiveChunkIndex (λ _, 0)
        (setChunks (splitTextIntoChunks (text (st w))) w)))).
    { cbn. unfold handlePlayPause. rewrite bool_decide_eq_false_2 by done.
      rewrite Hm. rewrite bool_decide_eq_false_2; [done|].
      unfold len. destruct (splitTextIntoChunks _); [done|cbn; lia]. }
    unfold step. rewrite E.
    set (d := setIsPlaying true _).
    destruct (st_commit_queued (st w) d) as (_ & Hmo & _ & Hi & _ & Hc).
    rewrite Hmo, Hi. split_and!; try done.
    + by destruct Hc as [[-> _]|Hc].
    + rewrite cache_commit. by rewrite cache_render_read.
  - intros Hm. unfold step. rewrite cache_commit.
    apply cache_render_invalidate; cbn; rewrite st_stopAudio; cbn; [done|].
    right. by rewrite Hm.
  - intros t Hm Ht. unfold step. rewrite cache_commit.
    apply cache_render_invalidate; cbn; [done|]. left. congruence.
Qed.

(** ** Resolving against the cache *)

(** C6, as the code has it.  A resolution issued while the cache holds an
    entry under its key returns that buffer and does nothing else: no
    call to [generateSpeech], no cache write.  In particular, once a
    fetch has settled with a buffer, resolving its key again is such a
    hit. *)
Theorem C6_cached_key_is_not_synthesised_again (w : World) (env : Closure)
    (caller : Caller) (index : Z) (b : AudioBuffer) (f : Fetch)
    (b' : AudioBuffer) :
  audioCacheRef w !! cacheKey (c_selectedVoice env) index = Some b →
  getAudioBufferForChunk env caller index w = (Some b, w)
  ∧ getAudioBufferForChunk (f_env f) caller (f_index f)
      (settle f (Resolved b') w) = (Some b', settle f (Resolved b') w).
Proof.
  intros Hhit. split.
  - unfold getAudioBufferForChunk. by rewrite Hhit.
  - unfold getAudioBufferForChunk.
    assert (audioCacheRef (settle f (Resolved b') w)
            !! cacheKey (c_selectedVoice (f_env f)) (f_index f) = Some b') as ->;
      [|done].
    unfold settle. destruct (f_caller f);
      rewrite ?cache_playChunk_resume; cbn; apply lookup_insert_eq.
Qed.

(** * Further properties of the component *)

(** ** What a render does to the chunks and to the memoised closure *)

Lemma env_stopAudio w : playChunkEnv (stopAudio w) = playChunkEnv w.
Proof. unfold stopAudio. by destruct (sourceNodeRef w). Qed.

Lemma env_getAudioBufferForChunk env c i w :
  playChunkEnv (getAudioBufferForChunk env c i w).2 = playChunkEnv w.
Proof. unfold getAudioBufferForChunk. by destruct (_ !! _). Qed.

Lemma env_playChunk_resume env i b w :
  playChunkEnv (playChunk_resume env i b w) = playChunkEnv w.
Proof.
  unfold playChunk_resume.
  case_match; rewrite ?env_getAudioBufferForChunk; cbn; apply env_stopAudio.
Qed.

Lemma env_playChunk env i w : playChunkEnv (playChunk env i w) = playChunkEnv w.
Proof.
  unfold playChunk. case_match; [done|].
  destruct (getAudioBufferForChunk _ _ _ _) as [[b|] w'] eqn:E;
    replace w' with (getAudioBufferForChunk env ActiveChunk i
      (setIsLoading true (setError None w))).2 by (by rewrite E);
    rewrite ?env_playChunk_resume, env_getAudioBufferForChunk; done.
Qed.

Lemma env_effect_playback r w :
  playChunkEnv (effect_playback r w) = playChunkEnv w.
Proof.
  unfold effect_playback. case_match; [apply env_playChunk|apply env_stopAudio].
Qed.

Lemma env_effect_voice w : playChunkEnv (effect_voice w) = playChunkEnv w.
Proof. unfold effect_voice. cbn. apply env_stopAudio. Qed.

Lemma env_effect_invalidate r w :
  playChunkEnv (effect_invalidate r w) = playChunkEnv w.
Proof. unfold effect_invalidate. by case_match. Qed.

(** [useCallback]: the closure is replaced exactly when [chunks] (by
    identity) or [selectedVoice] changed; no effect touches it. *)
Lemma env_render old w :
  playChunkEnv (render old w) =
    if changed (chunksRef old) (chunksRef (st w))
       || changed (selectedVoice old) (selectedVoice (st w))
    then closure_of (st w) else playChunkEnv w.
Proof.
  unfold render.
  set (c4 := _ || _ || _ || changed (len _) _).
  set (c2 := changed (text old) _ || _).
  set (c3 := changed (selectedVoice old) (selectedVoice (st w))).
  set (c1 := changed (chunksRef old) _ || c3).
  destruct c1, c2, c3, c4; cbn [st set_playChunkEnv];
    rewrite ?env_effect_playback, ?env_effect_voice, ?env_effect_invalidate;
    done.
Qed.

(** A render keeps the chunk array, or (the invalidation effect, in edit
    mode) replaces it by a new empty one. *)
Lemma render_chunks old w :
  (chunks (st (render old w)) = chunks (st w)
   ∧ chunksRef (st (render old w)) = chunksRef (st w))
  ∨ (chunks (st (render old w)) = []
     ∧ chunksRef (st (render old w)) = S (chunksRef (st w))
     ∧ mode (st w) = edit).
Proof.
  unfold render.
  set (w1 := if _ || _ then set_playChunkEnv _ w else w).
  assert (H1 : st w1 = st w) by (subst w1; by case_match).
  set (w2 := if _ || _ then effect_invalidate _ w1 else w1).
  set (w3 := if changed (selectedVoice old) _ then effect_voice w2 else w2).
  set (w4 := if _ || _ then effect_playback _ w3 else w3).
  assert (K : kept (st w2) (st w4)).
  { apply (kept_trans _ (st w3)).
    - subst w3. case_match; [apply kept_effect_voice|apply kept_refl].
    - subst w4. case_match; [apply kept_effect_playback|apply kept_refl]. }
  destruct K as (_&_&_&_&_&Kc&Kr). rewrite Kc, Kr.
  subst w2. case_match; [|left; by rewrite H1].
  unfold effect_invalidate. destruct (mode (st w)) eqn:Hm.
  - right. cbn. by rewrite H1.
  - left. by rewrite H1.
Qed.

(** The invalidation effect empties the chunks whenever the text or the
    mode changed and the mode is [edit]. *)
Lemma render_invalidated old w :
  mode (st w) = edit →
  text old ≠ text (st w) ∨ mode old ≠ mode (st w) →
  chunks (st (render old w)) = [].
Proof.
  intros Hm Hch. unfold render.
  assert (changed (text old) (text (st w)) || changed (mode old) (mode (st w))
          = true) as ->.
  { apply orb_true_iff. destruct Hch; [left|right]; by apply changed_true. }
  set (w1 := if _ || _ then set_playChunkEnv _ w else w).
  unfold effect_invalidate. rewrite Hm.
  set (w2 := set_audioCache ∅ (setChunks [] w1)).
  set (w3 := if changed (selectedVoice old) _ then effect_voice w2 else w2).
  set (w4 := if _ || _ then effect_playback _ w3 else w3).
  assert (K : kept (st w2) (st w4)).
  { apply (kept_trans _ (st w3)).
    - subst w3. case_match; [apply kept_effect_voice|apply kept_refl].
    - subst w4. case_match; [apply kept_effect_playback|apply kept_refl]. }
  destruct K as (_&_&_&_&_&Kc&_). by rewrite Kc.
Qed.

(** ** Invariants of the mounted component *)

Lemma run_invariant (P : World → Prop) :
  (∀ w e, P w → P (step w e)) → ∀ w es, P w → P (run w es).
Proof.
  intros Hstep w es. revert w. induction es as [|e es IH]; intros w H; [done|].
  cbn. by apply IH, Hstep.
Qed.

Lemma kept_settle f s w : kept (st w) (st (settle f s w)).
Proof.
  unfold settle. destruct s, (f_caller f); try apply kept_refl.
  - eapply kept_trans; [|apply kept_playChunk_resume]. apply kept_refl.
  - unfold kept; cbn; naive_solver.
Qed.

Lemma env_dispatch e w : playChunkEnv (dispatch e w) = playChunkEnv w.
Proof.
  destruct e as [t|v| | | |m|n s|n]; cbn; try done.
  - unfold handlePlayPause. repeat case_match; done.
  - unfold handleNext. case_match; [|done]. cbn. apply env_stopAudio.
  - unfold handlePrev. case_match; [|done]. cbn. apply env_stopAudio.
  - unfold handleModeChange. destruct m; [|done]. by rewrite env_stopAudio.
  - destruct (inflight w !! n) as [f|]; [|done].
    unfold settle. destruct s, (f_caller f); try done.
    by rewrite env_playChunk_resume.
  - destruct (list_find _ _) as [[k [n' s]]|]; [|done].
    unfold onended. repeat case_match; done.
Qed.

(** A callback keeps the chunk array, except play/pause when it leaves
    edit mode with new chunks. *)
Lemma dispatch_chunks e w :
  (chunks (st (dispatch e w)) = chunks (st w)
   ∧ chunksRef (st (dispatch e w)) = chunksRef (st w))
  ∨ (chunksRef (st (dispatch e w)) = S (chunksRef (st w))
     ∧ mode (st w) = edit ∧ mode (st (dispatch e w)) = read).
Proof.
  destruct e as [t|v| | | |m|n s|n]; cbn; try (by left).
  - unfold handlePlayPause. case_match; [by left|].
    destruct (mode (st w)) eqn:Hm; [|by left].
    case_match; [by left|by right].
  - unfold handleNext. case_match; [|by left]. cbn. rewrite st_stopAudio. by left.
  - unfold handlePrev. case_match; [|by left]. cbn. rewrite st_stopAudio. by left.
  - unfold handleModeChange. destruct m; [|by left]. rewrite st_stopAudio. by left.
  - destruct (inflight w !! n) as [f|]; [|by left].
    destruct (kept_settle f s (set_inflight (delete n (inflight w)) w))
      as (_&_&_&_&_&Hc&Hr). left. by rewrite Hc, Hr.
  - destruct (list_find _ _) as [[k [n' s]]|]; [|by left].
    unfold onended. repeat case_match; by left.
Qed.

Lemma dispatch_index e w :
  0 ≤ activeChunkIndex (st w) → 0 ≤ activeChunkIndex (st (dispatch e w)).
Proof.
  intros H. destruct e as [t|v| | | |m|n s|n]; cbn; try done.
  - unfold handlePlayPause. repeat case_match; done.
  - unfold handleNext. case_match; [|done]. cbn. rewrite st_stopAudio. lia.
  - unfold handlePrev. destruct (Z.ltb_spec 0 (activeChunkIndex (st w))); [|done].
    cbn. rewrite st_stopAudio. lia.
  - unfold handleModeChange. destruct m; [|done]. by rewrite st_stopAudio.
  - destruct (inflight w !! n) as [f|]; [|done].
    destruct (kept_settle f s (set_inflight (delete n (inflight w)) w))
      as (_&_&_&Hi&_). by rewrite Hi.
  - destruct (list_find _ _) as [[k [n' s]]|]; [|done].
    unfold onended. repeat case_match; cbn; lia.
Qed.

Lemma step_index w e :
  0 ≤ activeChunkIndex (st w) → 0 ≤ activeChunkIndex (st (step w e)).
Proof.
  intros H. unfold step.
  destruct (st_commit_queued (st w) (dispatch e w)) as (_&_&_&Hi&_).
  rewrite Hi. by apply dispatch_index.
Qed.

Lemma step_edit_chunks w e :
  (mode (st w) = edit → chunks (st w) = []) →
  mode (st (step w e)) = edit → chunks (st (step w e)) = [].
Proof.
  intros Inv. unfold step, rerenders, commit. rewrite render_again.
  set (d := dispatch e w).
  destruct (queued_render (st w) d) as (_ & Hm & _). rewrite Hm. intros Hedit.
  destruct (decide (text (st w) = text (st d))) as [Ht|Ht];
    [destruct (decide (mode (st w) = mode (st d))) as [Hmo|Hmo]|].
  - destruct (kept_render (st w) d Ht Hmo) as (_&_&_&_&_&Hc&_). rewrite Hc.
    pose proof (dispatch_chunks e w) as D. fold d in D.
    destruct D as [[Hc' _]|(_ & _ & Hr)].
    + rewrite Hc'. apply Inv. congruence.
    + congruence.
  - apply render_invalidated; auto.
  - apply render_invalidated; auto.
Qed.

(** X2.  In every state the mounted component can reach, the active index
    is not negative, and in edit mode there are no chunks. *)
Theorem X2_edit_mode_has_no_chunks (es : list Event) :
  0 ≤ activeChunkIndex (st (run mount es))
  ∧ (mode (st (run mount es)) = edit → chunks (st (run mount es)) = []).
Proof.
  apply (run_invariant (λ w, 0 ≤ activeChunkIndex (st w)
    ∧ (mode (st w) = edit → chunks (st w) = []))).
  - intros w e [Hi Hc]. split; [by apply step_index|by apply step_edit_chunks].
  - by vm_compute.
Qed.

(** One render makes the closure agree with the state it rendered,
    provided it agreed before whenever its dependencies did not change. *)
Lemma coherent_render old w :
  (chunksRef old = chunksRef (st w) → selectedVoice old = selectedVoice (st w) →
   coherent w) →
  c_chunks (playChunkEnv (render old w)) = chunks (st w)
  ∧ c_selectedVoice (playChunkEnv (render old w)) = selectedVoice (st w).
Proof.
  intros H. rewrite env_render.
  destruct (changed (chunksRef old) _) eqn:E1; [done|].
  destruct (changed (selectedVoice old) _) eqn:E2; [done|].
  cbn. exact (H (proj1 (changed_false _ _) E1) (proj1 (changed_false _ _) E2)).
Qed.

Lemma coherent_step w e : coherent w → coherent (step w e).
Proof.
  intros [Hc Hv]. unfold step, rerenders, commit.
  set (d := dispatch e w). set (w1 := render (st w) d).
  assert (H1 : c_chunks (playChunkEnv w1) = chunks (st d)
               ∧ c_selectedVoice (playChunkEnv w1) = selectedVoice (st d)).
  { apply coherent_render. intros Hr Hvo. unfold coherent.
    subst d. rewrite env_dispatch, Hc, Hv. split; [|done].
    destruct (dispatch_chunks e w) as [[Hc' _]|(Hr' & _)]; [done|lia]. }
  assert (H2 : c_chunks (playChunkEnv (render (st d) w1)) = chunks (st w1)
               ∧ c_selectedVoice (playChunkEnv (render (st d) w1))
                 = selectedVoice (st w1)).
  { apply coherent_render. intros Hr Hvo. unfold coherent.
    destruct H1 as [-> ->]. split; [|done].
    pose proof (render_chunks (st w) d) as D. fold w1 in D.
    destruct D as [[Hc' _]|(_ & Hr' & _)]; [done|lia]. }
  unfold coherent. subst w1. by rewrite render_again.
Qed.

(** X3.  In every reachable state the memoised [playChunk] closes over
    the current chunks and the current voice: its dependency array
    [chunks, selectedVoice] is enough for these two. *)
Theorem X3_playChunk_sees_current_chunks_and_voice (es : list Event) :
  c_chunks (playChunkEnv (run mount es)) = chunks (st (run mount es))
  ∧ c_selectedVoice (playChunkEnv (run mount es))
    = selectedVoice (st (run mount es)).
Proof.
  apply (run_invariant coherent); [apply coherent_step|by vm_compute].
Qed.

(** ** What is asked of [generateSpeech] *)

Lemma at_index_is_Some {A} (l : list A) (i : Z) :
  0 ≤ i < len l → is_Some (at_index l i).
Proof.
  unfold at_index, len. intros [H0 H1].
  destruct (Z.ltb_spec i 0); [lia|]. apply lookup_lt_is_Some. lia.
Qed.

Lemma fetches_defined_getAudioBufferForChunk env c i w :
  0 ≤ i < len (c_chunks env) → fetches_defined w →
  fetches_defined (getAudioBufferForChunk env c i w).2.
Proof.
  intros Hi [Hf Hl]. unfold getAudioBufferForChunk.
  destruct (_ !! _); [done|]. split; cbn.
  - apply Forall_app. split; [done|]. by apply Forall_singleton.
  - apply Forall_app. split; [done|]. apply Forall_singleton. cbn.
    by apply at_index_is_Some.
Qed.

Lemma fetches_defined_playChunk_resume env i b w :
  0 ≤ i → fetches_defined w → fetches_defined (playChunk_resume env i b w).
Proof.
  intros Hi H. unfold playChunk_resume.
  assert (H' : fetches_defined (setIsLoading false (startSource env i b (stopAudio w)))).
  { destruct (stopAudio_fetches w) as (Hfl & Hsl & _).
    destruct H as [Hf Hl]. split; cbn; by rewrite ?Hfl, ?Hsl. }
  destruct (Z.ltb_spec (i + 1) (len (c_chunks env))); [|done].
  apply fetches_defined_getAudioBufferForChunk; [lia|done].
Qed.

Lemma fetches_defined_playChunk env i w :
  fetches_defined w → fetches_defined (playChunk env i w).
Proof.
  intros H. unfold playChunk.
  destruct (Z.ltb_spec i 0); [done|].
  destruct (Z.leb_spec (len (c_chunks env)) i); [done|]. cbn [orb].
  pose proof (fetches_defined_getAudioBufferForChunk env ActiveChunk i
    (setIsLoading true (setError None w)) (conj H0 H1) H) as H'.
  destruct (getAudioBufferForChunk _ _ _ _) as [[b|] w']; [|done].
  by apply fetches_defined_playChunk_resume.
Qed.

Lemma fetches_defined_stopAudio w : fetches_defined w → fetches_defined (stopAudio w).
Proof.
  destruct (stopAudio_fetches w) as (Hfl & Hsl & _).
  unfold fetches_defined. by rewrite Hfl, Hsl.
Qed.

Lemma fetches_defined_render old w :
  fetches_defined w → fetches_defined (render old w).
Proof.
  intros H. unfold render.
  set (w1 := if _ || _ then set_playChunkEnv _ w else w).
  assert (H1 : fetches_defined w1) by (subst w1; by case_match).
  set (w2 := if _ || _ then effect_invalidate _ w1 else w1).
  assert (H2 : fetches_defined w2).
  { subst w2. case_match; [|done]. unfold effect_invalidate. by case_match. }
  set (w3 := if changed (selectedVoice old) _ then effect_voice w2 else w2).
  assert (H3 : fetches_defined w3).
  { subst w3. case_match; [|done]. unfold effect_voice.
    by apply fetches_defined_stopAudio in H2. }
  case_match; [|done]. unfold effect_playback. case_match.
  - by apply fetches_defined_playChunk.
  - by apply fetches_defined_stopAudio.
Qed.

Lemma fetches_defined_dispatch e w :
  fetches_defined w → fetches_defined (dispatch e w).
Proof.
  intros H. destruct e as [t|v| | | |m|n s|n]; cbn; try done.
  - unfold handlePlayPause. repeat case_match; done.
  - unfold handleNext. case_match; [|done]. by apply fetches_defined_stopAudio in H.
  - unfold handlePrev. case_match; [|done]. by apply fetches_defined_stopAudio in H.
  - unfold handleModeChange. destruct m; [|done].
    by apply (fetches_defined_stopAudio (setIsPlaying false (setMode edit w))).
  - destruct (inflight w !! n) as [f|] eqn:Hn; [|done].
    destruct H as [Hf Hl].
    assert (Hb : fetch_in_bounds f) by (by eapply Forall_lookup_1 in Hf).
    assert (H' : fetches_defined (set_inflight (delete n (inflight w)) w)).
    { split; [|done]. cbn. by apply Forall_delete. }
    unfold settle. destruct s, (f_caller f); try done.
    apply fetches_defined_playChunk_resume; [apply Hb|done].
  - destruct (list_find _ _) as [[k [n' s]]|]; [|done].
    unfold onended. repeat case_match; done.
Qed.

Lemma fetches_defined_step w e : fetches_defined w → fetches_defined (step w e).
Proof.
  intros H. unfold step, rerenders, commit.
  by apply fetches_defined_render, fetches_defined_render, fetches_defined_dispatch.
Qed.

(** X5.  In every reachable state each pending fetch asks for an index
    inside the chunk array it was issued with, and every call made to
    [generateSpeech] was given an existing chunk, never [undefined]. *)
Theorem X5_synthesis_is_only_asked_for_existing_chunks (es : list Event) :
  Forall (λ f, 0 ≤ f_index f < len (c_chunks (f_env f))) (inflight (run mount es))
  ∧ Forall (λ call, is_Some call.1) (synthLog (run mount es)).
Proof.
  apply (run_invariant fetches_defined); [apply fetches_defined_step|].
  split; by vm_compute.
Qed.

(** ** The loading flag *)

Lemma isLoading_playChunk_resume env i b w :
  isLoading (st (playChunk_resume env i b w)) = false.
Proof.
  unfold playChunk_resume. case_match; by rewrite ?st_getAudioBufferForChunk.
Qed.

Lemma loading_backed_playChunk env i w :
  loading_backed w → loading_backed (playChunk env i w).
Proof.
  intros H. unfold playChunk. case_match; [done|].
  unfold getAudioBufferForChunk. cbn. destruct (_ !! _).
  - intros Hl. by rewrite isLoading_playChunk_resume in Hl.
  - intros _. eexists. split; [apply elem_of_app; right; by apply list_elem_of_singleton|done].
Qed.

Lemma loading_backed_stopAudio w : loading_backed w → loading_backed (stopAudio w).
Proof.
  destruct (stopAudio_fetches w) as (Hfl & _).
  unfold loading_backed. by rewrite Hfl, st_stopAudio.
Qed.

Lemma loading_backed_render old w :
  loading_backed w → loading_backed (render old w).
Proof.
  intros H. unfold render.
  set (w1 := if _ || _ then set_playChunkEnv _ w else w).
  assert (H1 : loading_backed w1) by (subst w1; by case_match).
  set (w2 := if _ || _ then effect_invalidate _ w1 else w1).
  assert (H2 : loading_backed w2).
  { subst w2. case_match; [|done]. unfold effect_invalidate. by case_match. }
  set (w3 := if changed (selectedVoice old) _ then effect_voice w2 else w2).
  assert (H3 : loading_backed w3).
  { subst w3. case_match; [|done]. unfold effect_voice.
    by apply loading_backed_stopAudio in H2. }
  case_match; [|done]. unfold effect_playback. case_match.
  - by apply loading_backed_playChunk.
  - by apply loading_backed_stopAudio.
Qed.

Lemma elem_of_delete_other {A} (l : list A) (n : nat) (x y : A) :
  l !! n = Some x → y ∈ l → y ≠ x → y ∈ delete n l.
Proof.
  revert n. induction l as [|a l IH]; intros n Hn Hy Hne; [by destruct n|].
  destruct n as [|n]; cbn in *.
  - injection Hn as ->. apply elem_of_cons in Hy as [->|Hy]; done.
  - apply elem_of_cons in Hy as [->|Hy]; [by left|]. right. by eapply IH.
Qed.

Lemma loading_backed_dispatch e w :
  loading_backed w → loading_backed (dispatch e w).
Proof.
  intros H. destruct e as [t|v| | | |m|n s|n]; cbn; try done.
  - unfold handlePlayPause. repeat case_match; done.
  - unfold handleNext. case_match; [|done]. by apply loading_backed_stopAudio in H.
  - unfold handlePrev. case_match; [|done]. by apply loading_backed_stopAudio in H.
  - unfold handleModeChange. destruct m; [|done].
    by apply (loading_backed_stopAudio (setIsPlaying false (setMode edit w))).
  - destruct (inflight w !! n) as [f|] eqn:Hn; [|done].
    unfold settle. destruct (f_caller f) eqn:Hf.
    + destruct s; intros Hl; [by rewrite isLoading_playChunk_resume in Hl|done].
    + assert (H' : loading_backed (set_inflight (delete n (inflight w)) w)).
      { intros Hl. destruct (H Hl) as (g & Hg & Hc). exists g. split; [|done].
        cbn. eapply elem_of_delete_other; [done..|]. congruence. }
      by destruct s.
  - destruct (list_find _ _) as [[k [n' s]]|]; [|done].
    unfold onended. repeat case_match; done.
Qed.

Lemma loading_backed_step w e : loading_backed w → loading_backed (step w e).
Proof.
  intros H. unfold step, rerenders, commit.
  by apply loading_backed_render, loading_backed_render, loading_backed_dispatch.
Qed.

(** X4.  In every reachable state, [isLoading = true] implies that a
    fetch awaited by [playChunk] is still pending: the loading indicator
    is never left on with nothing that could clear it. *)
Theorem X4_loading_flag_has_a_pending_fetch (es : list Event) :
  isLoading (st (run mount es)) = true →
  ∃ f, f ∈ inflight (run mount es) ∧ f_caller f = ActiveChunk.
Proof.
  apply (run_invariant loading_backed); [apply loading_backed_step|].
  by vm_compute.
Qed.

(** ** Rendering reaches a fixed point *)

(** X1.  After any event, from any state, the second render queues no
    state update - the state it leaves is the state it rendered - and
    rendering more often than [rerenders] times gives the same result.
    The effects cannot keep re-triggering each other. *)
Theorem X1_rendering_reaches_a_fixed_point (w : World) (e : Event) (n : nat) :
  st (step w e) = st (render (st w) (dispatch e w))
  ∧ commit (rerenders + n) (st w) (dispatch e w) = step w e.
Proof.
  split; [|apply commit_settles].
  unfold step, rerenders, commit. apply render_again.
Qed.

(** ** Pressing play *)

(** The render after a callback that left [isPlaying] set, in read mode
    with chunks, and changed the index or [isPlaying] only: the playback
    effect calls [playChunk] on the active index. *)
Lemma render_play old w :
  chunksRef old = chunksRef (st w) → selectedVoice old = selectedVoice (st w) →
  text old = text (st w) → mode old = mode (st w) →
  chunks old = chunks (st w) →
  activeChunkIndex old ≠ activeChunkIndex (st w)
    ∨ isPlaying old ≠ isPlaying (st w) →
  isPlaying (st w) = true → mode (st w) = read → 0 < len (chunks (st w)) →
  render old w = playChunk (playChunkEnv w) (activeChunkIndex (st w)) w.
Proof.
  intros Hc Hv Ht Hm Hl Hch Hp Hmo Hlen. unfold render.
  rewrite Hc, Hv, Ht, Hm, Hl, !changed_same. cbn [orb].
  assert (changed (activeChunkIndex old) (activeChunkIndex (st w))
          || changed (isPlaying old) (isPlaying (st w)) = true) as ->.
  { apply orb_true_iff. destruct Hch; [left|right]; by apply changed_true. }
  cbn [orb]. unfold effect_playback. rewrite Hp, Hmo.
  apply Z.ltb_lt in Hlen. by rewrite Hlen.
Qed.

(** [playChunk] on an existing chunk touches only the error and the
    loading flag of the React state. *)
Lemma st_playChunk env i w :
  0 ≤ i < len (c_chunks env) →
  st (playChunk env i w) =
    st (setIsLoading
          (bool_decide (audioCacheRef w !! cacheKey (c_selectedVoice env) i = None))
          (setError None w)).
Proof.
  intros [H0 H1]. unfold playChunk.
  destruct (Z.ltb_spec i 0); [lia|].
  destruct (Z.leb_spec (len (c_chunks env)) i); [lia|]. cbn [orb].
  unfold getAudioBufferForChunk. cbn [audioCacheRef setIsLoading setError with_st].
  destruct (audioCacheRef w !! _) as [b|]; [|done].
  unfold playChunk_resume.
  case_match; rewrite ?st_getAudioBufferForChunk; cbn; by rewrite st_stopAudio.
Qed.

Lemma commit_play old w :
  chunksRef old = chunksRef (st w) → selectedVoice old = selectedVoice (st w) →
  text old = text (st w) → mode old = mode (st w) →
  chunks old = chunks (st w) →
  activeChunkIndex old ≠ activeChunkIndex (st w)
    ∨ isPlaying old ≠ isPlaying (st w) →
  isPlaying (st w) = true → mode (st w) = read →
  coherent w → in_bounds (st w) →
  commit rerenders old w = playChunk (playChunkEnv w) (activeChunkIndex (st w)) w.
Proof.
  intros Hc Hv Ht Hm Hl Hch Hp Hmo [Hco _] Hb. unfold rerenders, commit.
  unfold in_bounds in Hb.
  rewrite (render_play old w) by (try done; lia).
  apply render_idle. rewrite st_playChunk by (by rewrite Hco).
  by repeat split.
Qed.

(** [playChunk] on a cached chunk: the buffer is started at once. *)
Lemma playChunk_hit env i b w :
  0 ≤ i < len (c_chunks env) →
  audioCacheRef w !! cacheKey (c_selectedVoice env) i = Some b →
  playChunk env i w = playChunk_resume env i b (setIsLoading true (setError None w)).
Proof.
  intros [H0 H1] Hhit. unfold playChunk.
  destruct (Z.ltb_spec i 0); [lia|].
  destruct (Z.leb_spec (len (c_chunks env)) i); [lia|]. cbn [orb].
  unfold getAudioBufferForChunk. cbn [audioCacheRef setIsLoading setError with_st].
  by rewrite Hhit.
Qed.

(** [playChunk] on a chunk that is not cached: the fetch is issued and
    nothing else happens until it settles. *)
Lemma playChunk_miss env i w :
  0 ≤ i < len (c_chunks env) →
  audioCacheRef w !! cacheKey (c_selectedVoice env) i = None →
  st (playChunk env i w) = st (setIsLoading true (setError None w))
  ∧ sounding (playChunk env i w) = sounding w
  ∧ sourceNodeRef (playChunk env i w) = sourceNodeRef w
  ∧ audioCacheRef (playChunk env i w) = audioCacheRef w
  ∧ inflight (playChunk env i w) = (inflight w ++
      [ {| f_caller := ActiveChunk; f_index := i; f_env := env |} ])%list
  ∧ synthLog (playChunk env i w) = (synthLog w ++
      [ (at_index (c_chunks env) i, c_selectedVoice env) ])%list.
Proof.
  intros [H0 H1] Hmiss. unfold playChunk.
  destruct (Z.ltb_spec i 0); [lia|].
  destruct (Z.leb_spec (len (c_chunks env)) i); [lia|]. cbn [orb].
  unfold getAudioBufferForChunk. cbn [audioCacheRef setIsLoading setError with_st].
  by rewrite Hmiss.
Qed.

Lemma st_playChunk_resume env i b w :
  st (playChunk_resume env i b w) = st (setIsLoading false w).
Proof.
  unfold playChunk_resume.
  case_match; rewrite ?st_getAudioBufferForChunk; cbn; by rewrite st_stopAudio.
Qed.

Lemma heard_playChunk_resume env i b w :
  single_source w →
  heard (playChunk_resume env i b w) = [(nextNode w, b, i)].
Proof.
  intros H. unfold heard.
  by destruct (playChunk_resume_sounding env i b w H) as [-> _].
Qed.

(** What [playChunk]'s continuation leaves pending: nothing new, or the
    prefetch of the following chunk. *)
Lemma inflight_playChunk_resume env i b w :
  inflight (playChunk_resume env i b w) = inflight w
  ∨ inflight (playChunk_resume env i b w) = (inflight w ++
      [ {| f_caller := PrefetchNext; f_index := i + 1; f_env := env |} ])%list.
Proof.
  unfold playChunk_resume. destruct (stopAudio_fetches w) as (Hfl & _).
  case_match; [|left; cbn; by rewrite Hfl].
  unfold getAudioBufferForChunk. destruct (_ !! _); cbn; rewrite Hfl; auto.
Qed.

(** X6.  Play/pause on text that is not blank, while playing in read
    mode, pauses: [isPlaying] becomes false and the source node is
    stopped, so nothing sounds; no fetch is issued or cancelled, and the
    index, the cache and the loading flag stay as they are.  (On blank
    text play/pause only sets the error message, in any mode.) *)
Theorem X6_pause_stops_the_sound (w : World) :
  single_source w →
  mode (st w) = read → trim (text (st w)) ≠ "" → isPlaying (st w) = true →
  step w PlayPause = stopAudio (setIsPlaying false w)
  ∧ isPlaying (st (step w PlayPause)) = false
  ∧ sounding (step w PlayPause) = []
  ∧ activeChunkIndex (st (step w PlayPause)) = activeChunkIndex (st w)
  ∧ isLoading (st (step w PlayPause)) = isLoading (st w)
  ∧ inflight (step w PlayPause) = inflight w
  ∧ audioCacheRef (step w PlayPause) = audioCacheRef w.
Proof.
  intros Hs Hm Hb Hp.
  assert (E : step w PlayPause = stopAudio (setIsPlaying false w)).
  { unfold step. cbn [dispatch]. unfold handlePlayPause.
    rewrite bool_decide_eq_false_2 by done. rewrite Hm, Hp. cbn [negb].
    rewrite commit_paused by done. by rewrite Hp. }
  rewrite E. rewrite st_stopAudio.
  destruct (stopAudio_fetches (setIsPlaying false w)) as (-> & _ & ->).
  split_and!; try done. by apply stopAudio_silent.
Qed.

(** X7.  Play/pause on text that is not blank, while paused in read
    mode, the active chunk being cached: its buffer is started at once on
    a new node, which alone sounds; [isPlaying] is set, [isLoading] and the error are cleared,
    and no fetch for the active chunk is issued (at most the prefetch of
    the next one). *)
Theorem X7_play_starts_a_cached_chunk (w : World) (b : AudioBuffer) :
  single_source w → coherent w → in_bounds (st w) →
  mode (st w) = read → trim (text (st w)) ≠ "" → isPlaying (st w) = false →
  audioCacheRef w !! cacheKey (selectedVoice (st w)) (activeChunkIndex (st w))
    = Some b →
  heard (step w PlayPause) = [(nextNode w, b, activeChunkIndex (st w))]
  ∧ isPlaying (st (step w PlayPause)) = true
  ∧ isLoading (st (step w PlayPause)) = false
  ∧ error (st (step w PlayPause)) = None
  ∧ activeChunkIndex (st (step w PlayPause)) = activeChunkIndex (st w)
  ∧ (inflight (step w PlayPause) = inflight w
     ∨ inflight (step w PlayPause) = (inflight w ++
         [ {| f_caller := PrefetchNext;
              f_index := activeChunkIndex (st w) + 1;
              f_env := playChunkEnv w |} ])%list).
Proof.
  intros Hs [Hcc Hcv] Hb Hm Hbl Hp Hhit.
  assert (E : step w PlayPause =
    playChunk_resume (playChunkEnv w) (activeChunkIndex (st w)) b
      (setIsLoading true (setError None (setIsPlaying true w)))).
  { unfold step. cbn [dispatch]. unfold handlePlayPause.
    rewrite bool_decide_eq_false_2 by done. rewrite Hm, Hp. cbn [negb].
    rewrite commit_play; try done; [|right; cbn; by rewrite Hp].
    apply playChunk_hit; cbn; [by rewrite Hcc|by rewrite Hcv]. }
  rewrite E. split_and!.
  - by rewrite heard_playChunk_resume.
  - by rewrite st_playChunk_resume.
  - apply isLoading_playChunk_resume.
  - by rewrite st_playChunk_resume.
  - by rewrite st_playChunk_resume.
  - apply (inflight_playChunk_resume (playChunkEnv w) (activeChunkIndex (st w)) b
      (setIsLoading true (setError None (setIsPlaying true w)))).
Qed.

(** X8.  Play/pause on text that is not blank, while paused in read
    mode, the active chunk not being cached: [isPlaying] and [isLoading]
    are set, the error is cleared
    (so a failed chunk is retried by pressing play), and exactly one
    fetch is issued, for the active chunk with the current voice; what
    sounds is unchanged. *)
Theorem X8_play_fetches_an_uncached_chunk (w : World) :
  coherent w → in_bounds (st w) →
  mode (st w) = read → trim (text (st w)) ≠ "" → isPlaying (st w) = false →
  audioCacheRef w !! cacheKey (selectedVoice (st w)) (activeChunkIndex (st w))
    = None →
  isPlaying (st (step w PlayPause)) = true
  ∧ isLoading (st (step w PlayPause)) = true
  ∧ error (st (step w PlayPause)) = None
  ∧ sounding (step w PlayPause) = sounding w
  ∧ inflight (step w PlayPause) = (inflight w ++
      [ {| f_caller := ActiveChunk; f_index := activeChunkIndex (st w);
           f_env := playChunkEnv w |} ])%list
  ∧ synthLog (step w PlayPause) = (synthLog w ++
      [ (at_index (chunks (st w)) (activeChunkIndex (st w)),
         selectedVoice (st w)) ])%list.
Proof.
  intros [Hcc Hcv] Hb Hm Hbl Hp Hmiss.
  assert (E : step w PlayPause =
    playChunk (playChunkEnv w) (activeChunkIndex (st w)) (setIsPlaying true w)).
  { unfold step. cbn [dispatch]. unfold handlePlayPause.
    rewrite bool_decide_eq_false_2 by done. rewrite Hm, Hp. cbn [negb].
    rewrite commit_play; try done. right; cbn; by rewrite Hp. }
  rewrite E.
  destruct (playChunk_miss (playChunkEnv w) (activeChunkIndex (st w))
    (setIsPlaying true w)) as (-> & -> & _ & _ & -> & ->);
    [by rewrite Hcc|by rewrite Hcv|].
  by rewrite Hcc, Hcv.
Qed.

(** ** Skipping to another chunk *)

Lemma nextNode_stopAudio w : nextNode (stopAudio w) = nextNode w.
Proof. unfold stopAudio. by destruct (sourceNodeRef w). Qed.

(** What [handleNext] and [handlePrev] queue ([f] moves the index), once
    rendered: the sound is stopped, the index moved, and [playChunk] runs
    on the new index. *)
Lemma seek_plays w (f : Z → Z) :
  single_source w → coherent w → mode (st w) = read →
  f (activeChunkIndex (st w)) ≠ activeChunkIndex (st w) →
  0 ≤ f (activeChunkIndex (st w)) < len (chunks (st w)) →
  let w' := commit rerenders (st w)
              (setIsPlaying true (setActiveChunkIndex f (stopAudio w))) in
  activeChunkIndex (st w') = f (activeChunkIndex (st w))
  ∧ isPlaying (st w') = true
  ∧ error (st w') = None
  ∧ match audioCacheRef w
          !! cacheKey (selectedVoice (st w)) (f (activeChunkIndex (st w))) with
    | Some b =>
        heard w' = [(nextNode w, b, f (activeChunkIndex (st w)))]
        ∧ isLoading (st w') = false
    | None =>
        heard w' = []
        ∧ isLoading (st w') = true
        ∧ inflight w' = (inflight w ++
            [ {| f_caller := ActiveChunk;
                 f_index := f (activeChunkIndex (st w));
                 f_env := playChunkEnv w |} ])%list
    end.
Proof.
  intros Hs [Hcc Hcv] Hm Hne Hb.
  set (d := setIsPlaying true (setActiveChunkIndex f (stopAudio w))).
  assert (Hst : st d = st (setIsPlaying true (setActiveChunkIndex f w)))
    by (subst d; cbn; by rewrite st_stopAudio).
  assert (Henv : playChunkEnv d = playChunkEnv w) by apply env_stopAudio.
  assert (Hsd : sounding d = []) by (by apply stopAudio_silent).
  destruct (stopAudio_fetches w) as (Hfl & Hsl & Hca).
  assert (E : commit rerenders (st w) d =
    playChunk (playChunkEnv w) (f (activeChunkIndex (st w))) d).
  { pose proof (commit_play (st w) d) as Hd.
    rewrite Hst, Henv in Hd. cbn in Hd. apply Hd; try done.
    - left. congruence.
    - unfold coherent. by rewrite Henv, Hst. }
  cbn zeta. rewrite E. clear E.
  assert (Hb' : 0 ≤ f (activeChunkIndex (st w)) < len (c_chunks (playChunkEnv w)))
    by (by rewrite Hcc).
  rewrite (st_playChunk _ _ _ Hb'), Hcv.
  change (audioCacheRef d) with (audioCacheRef (stopAudio w)). rewrite Hca.
  split_and!.
  1: change (activeChunkIndex (st d) = f (activeChunkIndex (st w))); by rewrite Hst.
  1: change (isPlaying (st d) = true); by rewrite Hst.
  1: reflexivity.
  destruct (audioCacheRef w !! _) as [b|] eqn:Hlook.
  - rewrite (playChunk_hit _ _ b _ Hb')
      by (change (audioCacheRef d) with (audioCacheRef (stopAudio w));
          by rewrite Hca, Hcv).
    rewrite heard_playChunk_resume by (by apply single_source_silent).
    cbn. by rewrite nextNode_stopAudio.
  - destruct (playChunk_miss (playChunkEnv w) (f (activeChunkIndex (st w))) d Hb')
      as (_ & Hso & _ & _ & Hin & _).
    { change (audioCacheRef d) with (audioCacheRef (stopAudio w)).
      by rewrite Hca, Hcv. }
    unfold heard. rewrite Hso, Hsd, Hin.
    change (inflight d) with (inflight (stopAudio w)). by rewrite Hfl.
Qed.

(** X9.  Next, in read mode and not on the last chunk: the index moves
    forward by one and [isPlaying] is set; what sounded is stopped.  If
    the new chunk is cached its buffer starts at once and is all that
    sounds; otherwise nothing sounds, [isLoading] is set and one fetch
    for the new chunk is issued. *)
Theorem X9_next_plays_the_following_chunk (w : World) :
  single_source w → coherent w → mode (st w) = read →
  0 ≤ activeChunkIndex (st w) < len (chunks (st w)) - 1 →
  activeChunkIndex (st (step w Next)) = activeChunkIndex (st w) + 1
  ∧ isPlaying (st (step w Next)) = true
  ∧ error (st (step w Next)) = None
  ∧ match audioCacheRef w
          !! cacheKey (selectedVoice (st w)) (activeChunkIndex (st w) + 1) with
    | Some b =>
        heard (step w Next) = [(nextNode w, b, activeChunkIndex (st w) + 1)]
        ∧ isLoading (st (step w Next)) = false
    | None =>
        heard (step w Next) = []
        ∧ isLoading (st (step w Next)) = true
        ∧ inflight (step w Next) = (inflight w ++
            [ {| f_caller := ActiveChunk;
                 f_index := activeChunkIndex (st w) + 1;
                 f_env := playChunkEnv w |} ])%list
    end.
Proof.
  intros Hs Hc Hm Hb. unfold step. cbn [dispatch]. unfold handleNext.
  destruct (Z.ltb_spec (activeChunkIndex (st w)) (len (chunks (st w)) - 1)); [|lia].
  apply (seek_plays w (λ prev, prev + 1)); try done; lia.
Qed.

(** X10.  Prev, in read mode and not on the first chunk: as next, with
    the index moved back by one. *)
Theorem X10_prev_plays_the_preceding_chunk (w : World) :
  single_source w → coherent w → mode (st w) = read →
  0 < activeChunkIndex (st w) < len (chunks (st w)) →
  activeChunkIndex (st (step w Prev)) = activeChunkIndex (st w) - 1
  ∧ isPlaying (st (step w Prev)) = true
  ∧ error (st (step w Prev)) = None
  ∧ match audioCacheRef w
          !! cacheKey (selectedVoice (st w)) (activeChunkIndex (st w) - 1) with
    | Some b =>
        heard (step w Prev) = [(nextNode w, b, activeChunkIndex (st w) - 1)]
        ∧ isLoading (st (step w Prev)) = false
    | None =>
        heard (step w Prev) = []
        ∧ isLoading (st (step w Prev)) = true
        ∧ inflight (step w Prev) = (inflight w ++
            [ {| f_caller := ActiveChunk;
                 f_index := activeChunkIndex (st w) - 1;
                 f_env := playChunkEnv w |} ])%list
    end.
Proof.
  intros Hs Hc Hm Hb. unfold step. cbn [dispatch]. unfold handlePrev.
  destruct (Z.ltb_spec 0 (activeChunkIndex (st w))); [|lia].
  apply (seek_plays w (λ prev, prev - 1)); try done; lia.
Qed.

(** ** Leaving read mode, changing the voice *)

Lemma quiet_refl w : quiet w w.
Proof. by repeat split. Qed.

Lemma quiet_trans w1 w2 w3 : quiet w1 w2 → quiet w2 w3 → quiet w1 w3.
Proof.
  intros (Hf & Hl & Hs) (Hf' & Hl' & Hs'). repeat split; try congruence. auto.
Qed.

Lemma quiet_stopAudio w : quiet w (stopAudio w).
Proof.
  destruct (stopAudio_fetches w) as (Hfl & Hsl & _). repeat split; [done..|].
  intros Hs. unfold stopAudio. destruct (sourceNodeRef w); [|done].
  cbn. by rewrite Hs.
Qed.

(** While [isPlaying] is false a render issues no fetch and starts no
    sound. *)
Lemma quiet_render old w : isPlaying (st w) = false → quiet w (render old w).
Proof.
  intros Hp. unfold render.
  set (w1 := if _ || _ then set_playChunkEnv _ w else w).
  assert (H1 : quiet w w1) by (subst w1; case_match; by repeat split).
  set (w2 := if _ || _ then effect_invalidate _ w1 else w1).
  assert (H2 : quiet w w2).
  { subst w2. case_match; [|done]. unfold effect_invalidate.
    case_match; [|done]. destruct H1 as (?&?&?). by repeat split. }
  set (w3 := if changed (selectedVoice old) _ then effect_voice w2 else w2).
  assert (H3 : quiet w w3).
  { subst w3. case_match; [|done]. eapply quiet_trans; [exact H2|].
    unfold effect_voice. destruct (quiet_stopAudio w2) as (?&?&?).
    by repeat split. }
  case_match; [|done]. eapply quiet_trans; [exact H3|].
  unfold effect_playback. rewrite Hp. apply quiet_stopAudio.
Qed.

Lemma quiet_commit old w :
  isPlaying (st w) = false → quiet w (commit rerenders old w).
Proof.
  intros Hp. unfold rerenders, commit.
  eapply quiet_trans; [by apply quiet_render|]. apply quiet_render.
  destruct (queued_render old w) as (_&_&_&_&[Hq|Hq]&_); congruence.
Qed.

(** X11.  Switching to edit mode from read mode tears the session down:
    in edit mode, not playing, no chunks, an empty cache and nothing
    sounding; the index is kept.  Pending fetches are not cancelled: they
    stay pending. *)
Theorem X11_switching_to_edit_tears_down (w : World) :
  single_source w → mode (st w) = read →
  mode (st (step w (ModeChange edit))) = edit
  ∧ isPlaying (st (step w (ModeChange edit))) = false
  ∧ chunks (st (step w (ModeChange edit))) = []
  ∧ activeChunkIndex (st (step w (ModeChange edit))) = activeChunkIndex (st w)
  ∧ audioCacheRef (step w (ModeChange edit)) = ∅
  ∧ sounding (step w (ModeChange edit)) = []
  ∧ inflight (step w (ModeChange edit)) = inflight w.
Proof.
  intros Hs Hm. unfold step. cbn [dispatch]. unfold handleModeChange.
  set (d := stopAudio _).
  assert (Hst : st d = st (setIsPlaying false (setMode edit w)))
    by apply st_stopAudio.
  assert (Hsd : sounding d = [])
    by (by apply (stopAudio_silent (setIsPlaying false (setMode edit w)))).
  destruct (stopAudio_fetches (setIsPlaying false (setMode edit w)))
    as (Hfl & _).
  destruct (st_commit_queued (st w) d) as (_ & Hmo & _ & Hi & Hp & _).
  destruct (quiet_commit (st w) d) as (Hqf & _ & Hqs); [by rewrite Hst|].
  split_and!.
  - by rewrite Hmo, Hst.
  - rewrite Hst in Hp. by destruct Hp.
  - unfold rerenders, commit. rewrite render_again.
    apply render_invalidated; rewrite Hst; cbn; [done|]. right. by rewrite Hm.
  - by rewrite Hi, Hst.
  - rewrite cache_commit.
    apply cache_render_invalidate; rewrite Hst; cbn; [done|]. right. by rewrite Hm.
  - by apply Hqs.
  - by rewrite Hqf.
Qed.

(** The state after a voice change: the render re-memoises [playChunk],
    the voice effect runs, and if [isPlaying] was set the playback effect
    stops audio once more. *)
Lemma step_voice w v :
  v ≠ selectedVoice (st w) →
  step w (VoiceChange v) =
    let w1 := effect_voice
      (set_playChunkEnv (closure_of (st (setSelectedVoice v w)))
         (setSelectedVoice v w)) in
    if isPlaying (st w) then stopAudio w1 else w1.
Proof.
  intros Hv. unfold step, rerenders, commit. cbn [dispatch].
  rewrite (render_voice w v Hv). cbn zeta.
  set (w1 := effect_voice _).
  assert (Hst : st w1 = st (setIsPlaying false (setSelectedVoice v w))).
  { subst w1. unfold effect_voice. cbn. by rewrite st_stopAudio. }
  rewrite render_paused; try (by rewrite Hst). done.
Qed.

(** X12.  A voice change interrupts: afterwards the new voice is
    selected, [isPlaying] is false and nothing sounds, while the text,
    the mode, the chunks and the index are kept.  The re-memoised
    [playChunk] closes over the [isPlaying] and the index of the moment
    of the change. *)
Theorem X12_voice_change_interrupts (w : World) (v : string) :
  single_source w → v ≠ selectedVoice (st w) →
  st (step w (VoiceChange v)) = st (setIsPlaying false (setSelectedVoice v w))
  ∧ sounding (step w (VoiceChange v)) = []
  ∧ playChunkEnv (step w (VoiceChange v)) =
      {| c_chunks := chunks (st w); c_selectedVoice := v;
         c_isPlaying := isPlaying (st w);
         c_activeChunkIndex := activeChunkIndex (st w) |}.
Proof.
  intros Hs Hv. rewrite (step_voice w v Hv). cbn zeta.
  set (w1 := effect_voice _).
  assert (Hst : st w1 = st (setIsPlaying false (setSelectedVoice v w))).
  { subst w1. unfold effect_voice. cbn. by rewrite st_stopAudio. }
  assert (Hso : sounding w1 = []).
  { subst w1. unfold effect_voice. cbn.
    by apply (stopAudio_silent (set_playChunkEnv _ (setSelectedVoice v w))). }
  assert (Henv : playChunkEnv w1 = closure_of (st (setSelectedVoice v w))).
  { subst w1. unfold effect_voice. cbn. by rewrite env_stopAudio. }
  destruct (isPlaying (st w)) eqn:Hp.
  - rewrite st_stopAudio, env_stopAudio, Hst, Henv. split_and!; [done| |].
    + by apply quiet_stopAudio.
    + unfold closure_of. cbn. by rewrite Hp.
  - rewrite Hst, Henv. split_and!; [done..|].
    unfold closure_of. cbn. by rewrite Hp.
Qed.

(** ** The end of a chunk *)

Lemma dispatch_ended w n s :
  sounding w = [(n, s)] →
  dispatch (SourceEnded n) w = onended s (set_sounding [] w).
Proof.
  intros Hs. cbn [dispatch]. rewrite Hs. cbn.
  rewrite decide_True by done. by rewrite decide_False by (intros H; by apply H).
Qed.

(** X13.  The natural end of a chunk whose [onended] guard holds (the
    captured index is the index played, the captured [isPlaying] is set)
    and whose captured chunks are the current ones, while playing in
    read mode with a following chunk: the index advances by one and the
    following chunk is played as by next - started at once if cached,
    fetched otherwise. *)
Theorem X13_end_of_chunk_advances_when_the_guard_holds (w : World) (n : nat)
    (s : Source) :
  sounding w = [(n, s)] →
  c_activeChunkIndex (src_env s) = src_index s →
  c_isPlaying (src_env s) = true →
  c_chunks (src_env s) = chunks (st w) →
  coherent w → mode (st w) = read → isPlaying (st w) = true →
  0 ≤ activeChunkIndex (st w) → activeChunkIndex (st w) + 1 < len (chunks (st w)) →
  activeChunkIndex (st (step w (SourceEnded n))) = activeChunkIndex (st w) + 1
  ∧ isPlaying (st (step w (SourceEnded n))) = true
  ∧ match audioCacheRef w
          !! cacheKey (selectedVoice (st w)) (activeChunkIndex (st w) + 1) with
    | Some b =>
        heard (step w (SourceEnded n))
          = [(nextNode w, b, activeChunkIndex (st w) + 1)]
        ∧ isLoading (st (step w (SourceEnded n))) = false
    | None =>
        heard (step w (SourceEnded n)) = []
        ∧ isLoading (st (step w (SourceEnded n))) = true
        ∧ inflight (step w (SourceEnded n)) = (inflight w ++
            [ {| f_caller := ActiveChunk;
                 f_index := activeChunkIndex (st w) + 1;
                 f_env := playChunkEnv w |} ])%list
    end.
Proof.
  intros Hs Hgi Hgp Hgc [Hcc Hcv] Hm Hp H0 H1.
  unfold step. rewrite (dispatch_ended w n s Hs). unfold onended.
  rewrite bool_decide_eq_true_2 by done. rewrite Hgp. cbn [andb].
  change (activeChunkIndex (st (set_sounding [] w))) with (activeChunkIndex (st w)).
  rewrite Hgc. apply Z.ltb_lt in H1 as H1'. rewrite H1'.
  set (d := setActiveChunkIndex _ _).
  assert (Hb : 0 ≤ activeChunkIndex (st w) + 1 < len (c_chunks (playChunkEnv w)))
    by (rewrite Hcc; lia).
  assert (E : commit rerenders (st w) d =
    playChunk (playChunkEnv w) (activeChunkIndex (st w) + 1) d).
  { apply (commit_play (st w) d); try done.
    - left. cbn. lia.
    - unfold in_bounds. cbn. lia. }
  rewrite E. rewrite (st_playChunk _ _ _ Hb), Hcv.
  change (audioCacheRef d) with (audioCacheRef w).
  split_and!; [done..|].
  destruct (audioCacheRef w !! _) as [b|] eqn:Hlook.
  - rewrite (playChunk_hit _ _ b _ Hb) by (by rewrite Hcv).
    rewrite heard_playChunk_resume by (by apply single_source_silent). done.
  - destruct (playChunk_miss (playChunkEnv w) (activeChunkIndex (st w) + 1) d Hb)
      as (_ & Hso & _ & _ & Hin & _); [by rewrite Hcv|].
    unfold heard. by rewrite Hso, Hin.
Qed.

(** X14.  The natural end of a chunk whose guard holds, when no chunk
    follows in the captured array: [isPlaying] is cleared, the index
    stays, nothing sounds and no fetch is issued. *)
Theorem X14_end_of_last_chunk_stops_playing (w : World) (n : nat) (s : Source) :
  sounding w = [(n, s)] →
  c_activeChunkIndex (src_env s) = src_index s →
  c_isPlaying (src_env s) = true →
  len (c_chunks (src_env s)) ≤ activeChunkIndex (st w) + 1 →
  isPlaying (st (step w (SourceEnded n))) = false
  ∧ activeChunkIndex (st (step w (SourceEnded n))) = activeChunkIndex (st w)
  ∧ sounding (step w (SourceEnded n)) = []
  ∧ inflight (step w (SourceEnded n)) = inflight w
  ∧ synthLog (step w (SourceEnded n)) = synthLog w.
Proof.
  intros Hs Hgi Hgp Hlast.
  unfold step. rewrite (dispatch_ended w n s Hs). unfold onended.
  rewrite bool_decide_eq_true_2 by done. rewrite Hgp. cbn [andb].
  change (activeChunkIndex (st (set_sounding [] w))) with (activeChunkIndex (st w)).
  destruct (Z.ltb_spec (activeChunkIndex (st w) + 1) (len (c_chunks (src_env s))));
    [lia|].
  set (d := setActiveChunkIndex _ _).
  rewrite (commit_paused (st w) d) by done.
  destruct (quiet_stopAudio d) as (Hf & Hl & Hq).
  destruct (isPlaying (st w)); rewrite ?st_stopAudio, ?Hf, ?Hl;
    split_and!; try done. by apply Hq.
Qed.

(** X15.  The natural end of a chunk whose guard fails - the index
    captured by [playChunk] is not the index played, or the captured
    [isPlaying] is false: the notification is dropped.  The node stops
    sounding and nothing else changes; in particular the index does not
    advance. *)
Theorem X15_end_of_chunk_is_dropped_when_the_guard_fails (w : World) (n : nat)
    (s : Source) :
  sounding w = [(n, s)] →
  c_activeChunkIndex (src_env s) ≠ src_index s ∨ c_isPlaying (src_env s) = false →
  step w (SourceEnded n) = set_sounding [] w.
Proof.
  intros Hs Hg.
  assert (E : dispatch (SourceEnded n) w = set_sounding [] w).
  { rewrite (dispatch_ended w n s Hs). unfold onended.
    destruct Hg as [Hg|Hg].
    - by rewrite bool_decide_eq_false_2.
    - by rewrite Hg, andb_false_r. }
  rewrite step_idle; rewrite E; [done|apply same_deps_refl].
Qed.

(** ** Edge cases of the commands *)

(** X16.  Play/pause on text that is not blank, in read mode without
    chunks (read mode entered through the mode switch, which does not
    split the text): [isPlaying] is set, but nothing is fetched and
    nothing sounds. *)
Theorem X16_play_without_chunks_plays_nothing (w : World) :
  single_source w →
  mode (st w) = read → chunks (st w) = [] →
  trim (text (st w)) ≠ "" → isPlaying (st w) = false →
  step w PlayPause = stopAudio (setIsPlaying true w)
  ∧ isPlaying (st (step w PlayPause)) = true
  ∧ sounding (step w PlayPause) = []
  ∧ inflight (step w PlayPause) = inflight w
  ∧ synthLog (step w PlayPause) = synthLog w.
Proof.
  intros Hs Hm Hc Hb Hp.
  assert (E : step w PlayPause = stopAudio (setIsPlaying true w)).
  { unfold step. cbn [dispatch]. unfold handlePlayPause.
    rewrite bool_decide_eq_false_2 by done. rewrite Hm, Hp. cbn [negb].
    unfold rerenders, commit.
    assert (R : render (st w) (setIsPlaying true w) = stopAudio (setIsPlaying true w)).
    { unfold render. cbn [st setIsPlaying with_st chunksRef selectedVoice text
        mode activeChunkIndex isPlaying chunks].
      rewrite !changed_same, Hp. cbn [orb].
      assert (changed false true = true) as -> by done. cbn [orb].
      unfold effect_playback. cbn [st isPlaying mode chunks].
      rewrite Hm, Hc. done. }
    rewrite R. apply render_idle. rewrite st_stopAudio. apply same_deps_refl. }
  rewrite E, st_stopAudio.
  destruct (stopAudio_fetches (setIsPlaying true w)) as (-> & -> & _).
  split_and!; try done.
  by apply (stopAudio_silent (setIsPlaying true w)).
Qed.

(** X17.  A text change in read mode changes the text and nothing else:
    the chunks being read and the cache are not invalidated, and
    playback goes on. *)
Theorem X17_text_change_in_read_mode_invalidates_nothing (w : World) (t : string) :
  mode (st w) = read →
  step w (TextChange t) = setText t w.
Proof.
  intros Hm. unfold step. cbn [dispatch]. unfold rerenders, commit.
  assert (R : render (st w) (setText t w) = setText t w).
  { unfold render. cbn [st setText with_st chunksRef selectedVoice text
      mode activeChunkIndex isPlaying chunks].
    rewrite !changed_same. cbn [orb]. rewrite orb_false_r.
    unfold effect_invalidate. cbn [mode]. rewrite Hm. by case_match. }
  rewrite R. apply render_idle, same_deps_refl.
Qed.

(** X18.  In every reachable state [stopAudio] leaves nothing sounding
    and an empty node ref, and calling it again changes nothing. *)
Theorem X18_stopAudio_silences_and_is_idempotent (es : list Event) :
  sounding (stopAudio (run mount es)) = []
  ∧ sourceNodeRef (stopAudio (run mount es)) = None
  ∧ stopAudio (stopAudio (run mount es)) = stopAudio (run mount es).
Proof.
  pose proof (single_source_run mount es single_source_mount) as H.
  split; [by apply stopAudio_silent|].
  generalize (run mount es). intros w.
  unfold stopAudio. destruct (sourceNodeRef w) eqn:E; cbn; rewrite ?E; done.
Qed.

(** ** Cache keys *)

Lemma cacheKey_nil i : cacheKey "" i = String.String "-"%char (pretty i).
Proof. done. Qed.

Lemma cacheKey_cons c v i :
  cacheKey (String.String c v) i = String.String c (cacheKey v i).
Proof. done. Qed.

(** X19.  For voice ids without ["-"] - all ids of [VOICE_OPTIONS] are
    such - the cache key determines the voice and the index: two
    different (voice, index) pairs never share a cache entry. *)
Theorem X19_cache_keys_do_not_collide (v v' : string) (i j : Z) :
  has_dash v = false → has_dash v' = false →
  cacheKey v i = cacheKey v' j →
  v = v' ∧ i = j.
Proof.
  revert v'. induction v as [|c v IH]; intros [|c' v'] Hv Hv' Hk.
  - rewrite !cacheKey_nil in Hk. injection Hk as Hk.
    split; [done|]. by apply (inj pretty).
  - rewrite cacheKey_nil, cacheKey_cons in Hk. injection Hk as <- _.
    cbn in Hv'. by rewrite bool_decide_eq_true_2 in Hv'.
  - rewrite cacheKey_nil, cacheKey_cons in Hk. injection Hk as -> _.
    cbn in Hv. by rewrite bool_decide_eq_true_2 in Hv.
  - rewrite !cacheKey_cons in Hk. injection Hk as -> Hk.
    cbn in Hv, Hv'. apply orb_false_iff in Hv as [_ Hv], Hv' as [_ Hv'].
    destruct (IH v' Hv Hv' Hk) as [-> ->]. done.
Qed.

(** ** What a settling fetch does *)

Lemma step_settle_active w n f b :
  inflight w !! n = Some f → f_caller f = ActiveChunk →
  step w (FetchSettled n (Resolved b)) =
    playChunk_resume (f_env f) (f_index f) b
      (set_audioCache
         (<[cacheKey (c_selectedVoice (f_env f)) (f_index f) := b]>
            (audioCacheRef w))
         (set_inflight (delete n (inflight w)) w)).
Proof.
  intros Hn Hf.
  assert (E : dispatch (FetchSettled n (Resolved b)) w =
    playChunk_resume (f_env f) (f_index f) b
      (set_audioCache
         (<[cacheKey (c_selectedVoice (f_env f)) (f_index f) := b]>
            (audioCacheRef w))
         (set_inflight (delete n (inflight w)) w))).
  { cbn [dispatch]. rewrite Hn. unfold settle. by rewrite Hf. }
  rewrite step_idle; rewrite E; [done|].
  rewrite st_playChunk_resume. by repeat split.
Qed.

(** X20.  A settling fetch writes the cache under its own key and nowhere
    else, and only when it resolved: the cache afterwards is the cache
    before with that one entry set, or unchanged after a rejection. *)
Theorem X20_a_fetch_writes_only_its_own_cache_entry (w : World) (n : nat)
    (f : Fetch) (s : Settlement) :
  inflight w !! n = Some f →
  audioCacheRef (step w (FetchSettled n s)) =
    match s with
    | Resolved b =>
        <[cacheKey (c_selectedVoice (f_env f)) (f_index f) := b]> (audioCacheRef w)
    | Rejected _ => audioCacheRef w
    end.
Proof.
  intros Hn. unfold step. rewrite cache_commit.
  set (d := dispatch _ w).
  assert (K : kept (st w) (st d)).
  { subst d. cbn [dispatch]. rewrite Hn.
    apply (kept_settle f s (set_inflight (delete n (inflight w)) w)). }
  destruct K as (Ht & Hm & Hv & _).
  rewrite cache_render by done.
  subst d. cbn [dispatch]. rewrite Hn. unfold settle.
  destruct s, (f_caller f); rewrite ?cache_playChunk_resume; done.
Qed.

(** X21.  When a fetch awaited by [playChunk] resolves, its buffer is
    started on a new node, which then alone sounds, and [isLoading] is
    cleared - whatever the voice, the index, the mode and [isPlaying] are
    by then. *)
Theorem X21_a_resolved_fetch_always_starts_its_buffer (w : World) (n : nat)
    (f : Fetch) (b : AudioBuffer) :
  single_source w →
  inflight w !! n = Some f → f_caller f = ActiveChunk →
  heard (step w (FetchSettled n (Resolved b))) = [(nextNode w, b, f_index f)]
  ∧ st (step w (FetchSettled n (Resolved b))) = st (setIsLoading false w).
Proof.
  intros Hs Hn Hf. rewrite (step_settle_active w n f b Hn Hf).
  split; [|by rewrite st_playChunk_resume].
  by rewrite heard_playChunk_resume.
Qed.

(** ** Entering read mode *)

Lemma changed_succ (k : nat) : changed k (S k) = true.
Proof. apply changed_true. lia. Qed.

(** The state after play/pause has left edit mode: [playChunk] is
    re-memoised over the new chunks, with [isPlaying] set and index 0,
    and the playback effect calls it on chunk 0. *)
Lemma step_start w :
  mode (st w) = edit → trim (text (st w)) ≠ "" →
  splitTextIntoChunks (text (st w)) ≠ [] →
  let d := setIsPlaying true (setMode read (setActiveChunkIndex (λ _, 0)
             (setChunks (splitTextIntoChunks (text (st w))) w))) in
  step w PlayPause =
    playChunk (closure_of (st d)) 0 (set_playChunkEnv (closure_of (st d)) d).
Proof.
  intros Hm Hb Hsplit d.
  assert (Hlen : 0 < len (splitTextIntoChunks (text (st w)))).
  { unfold len. destruct (splitTextIntoChunks _); [done|cbn; lia]. }
  assert (E : dispatch PlayPause w = d).
  { cbn [dispatch]. unfold handlePlayPause. rewrite bool_decide_eq_false_2 by done.
    rewrite Hm. rewrite bool_decide_eq_false_2 by lia. done. }
  unfold step, rerenders, commit. rewrite E.
  assert (R : render (st w) d =
    playChunk (closure_of (st d)) 0 (set_playChunkEnv (closure_of (st d)) d)).
  { unfold render. subst d.
    cbn [st setIsPlaying setMode setActiveChunkIndex setChunks with_st chunksRef
      selectedVoice text mode activeChunkIndex isPlaying chunks].
    rewrite changed_succ, !changed_same, Hm. cbn [orb].
    assert (changed edit read = true) as -> by done.
    rewrite !orb_true_r. cbn [orb andb].
    unfold effect_invalidate, effect_playback.
    cbn [st set_playChunkEnv mode isPlaying chunks activeChunkIndex playChunkEnv
      andb].
    rewrite bool_decide_eq_true_2 by done. cbn [andb].
    apply Z.ltb_lt in Hlen. by rewrite Hlen. }
  rewrite R. apply render_idle. rewrite st_playChunk by (subst d; cbn; lia).
  by repeat split.
Qed.

(** X22.  Play/pause in edit mode on text that is not blank and splits
    into chunks starts the reading session with [isPlaying] set and [playChunk] run on chunk
    0: if chunk 0 is (still) cached for the voice, that buffer is started
    at once; otherwise [isLoading] is set and one fetch for (voice, 0) is
    issued with the text of the first chunk. *)
Theorem X22_starting_to_read_resolves_the_first_chunk (w : World) :
  single_source w →
  mode (st w) = edit → trim (text (st w)) ≠ "" →
  splitTextIntoChunks (text (st w)) ≠ [] →
  isPlaying (st (step w PlayPause)) = true
  ∧ error (st (step w PlayPause)) = None
  ∧ playChunkEnv (step w PlayPause) =
      {| c_chunks := splitTextIntoChunks (text (st w));
         c_selectedVoice := selectedVoice (st w);
         c_isPlaying := true; c_activeChunkIndex := 0 |}
  ∧ match audioCacheRef w !! cacheKey (selectedVoice (st w)) 0 with
    | Some b =>
        heard (step w PlayPause) = [(nextNode w, b, 0)]
        ∧ isLoading (st (step w PlayPause)) = false
    | None =>
        sounding (step w PlayPause) = sounding w
        ∧ isLoading (st (step w PlayPause)) = true
        ∧ inflight (step w PlayPause) = (inflight w ++
            [ {| f_caller := ActiveChunk; f_index := 0;
                 f_env := playChunkEnv (step w PlayPause) |} ])%list
        ∧ synthLog (step w PlayPause) = (synthLog w ++
            [ (head (splitTextIntoChunks (text (st w))), selectedVoice (st w)) ])%list
    end.
Proof.
  intros Hs Hm Hb Hsplit. rewrite (step_start w Hm Hb Hsplit). cbn zeta.
  set (d := setIsPlaying true _).
  set (env := closure_of (st d)).
  assert (Hlen : 0 ≤ 0 < len (c_chunks env)).
  { subst env d. cbn. unfold len. destruct (splitTextIntoChunks _); [done|cbn; lia]. }
  rewrite env_playChunk, (st_playChunk _ _ _ Hlen).
  split_and!; [done..|].
  change (c_selectedVoice env) with (selectedVoice (st w)).
  change (audioCacheRef (set_playChunkEnv env d)) with (audioCacheRef w).
  destruct (audioCacheRef w !! _) as [b|] eqn:Hlook.
  - rewrite (playChunk_hit _ _ b _ Hlen) by done.
    by rewrite heard_playChunk_resume.
  - destruct (playChunk_miss env 0 (set_playChunkEnv env d) Hlen)
      as (_ & Hso & _ & _ & Hin & Hlog); [done|].
    rewrite Hso, Hin, Hlog. split_and!; try done.
    subst env d. cbn. unfold at_index. cbn.
    by destruct (splitTextIntoChunks _).
Qed.

(** X23.  The mode switch to read mode, in edit mode without chunks,
    only switches the mode (and stops audio): the text is not split, so
    read mode is entered with no chunks, and nothing is fetched. *)
Theorem X23_mode_switch_to_read_builds_no_chunks (w : World) :
  mode (st w) = edit → chunks (st w) = [] →
  step w (ModeChange read) = stopAudio (setMode read w)
  ∧ chunks (st (step w (ModeChange read))) = []
  ∧ inflight (step w (ModeChange read)) = inflight w.
Proof.
  intros Hm Hc.
  assert (E : step w (ModeChange read) = stopAudio (setMode read w)).
  { unfold step. cbn [dispatch]. unfold handleModeChange, rerenders, commit.
    assert (R : render (st w) (setMode read w) = stopAudio (setMode read w)).
    { unfold render. cbn [st setMode with_st chunksRef selectedVoice text
        mode activeChunkIndex isPlaying chunks].
      rewrite !changed_same, Hm. cbn [orb].
      assert (changed edit read = true) as -> by done.
      cbn [orb].
      unfold effect_invalidate, effect_playback. cbn [st mode chunks isPlaying].
      rewrite Hc. cbn. by rewrite andb_false_r. }
    rewrite R. apply render_idle. rewrite st_stopAudio. apply same_deps_refl. }
  rewrite E, st_stopAudio.
  destruct (stopAudio_fetches (setMode read w)) as (-> & _).
  done.
Qed.

(** ** Prefetch *)

Lemma cacheKey_index_inj v i j : cacheKey v i = cacheKey v j → i = j.
Proof.
  unfold cacheKey. intros H.
  apply (inj (String.app v)) in H. apply (inj (String.app "-")) in H.
  by apply (inj pretty) in H.
Qed.

(** C8.  Whenever playback of chunk [i] starts and a chunk [i+1] exists,
    a fetch for [(voice, i+1)] is issued on behalf of nobody (unless the
    cache already holds it) - in particular when the fetch awaited by
    [playChunk] resolves and its buffer is started.  When such a prefetch
    settles, the only effect is that the fetch is no longer pending and,
    on success, that the cache holds the buffer under its key: a rejected
    prefetch changes neither the error, nor [isPlaying],
    [activeChunkIndex], [mode] or [isLoading], nor what is sounding. *)
Theorem C8_prefetch_only_writes_cache (w : World) :
  (∀ env i b, i + 1 < len (c_chunks env) →
     match audioCacheRef w !! cacheKey (c_selectedVoice env) (i + 1) with
     | Some _ =>
         inflight (playChunk_resume env i b w) = inflight w
         ∧ synthLog (playChunk_resume env i b w) = synthLog w
     | None =>
         inflight (playChunk_resume env i b w) = (inflight w ++
           [ {| f_caller := PrefetchNext; f_index := i + 1; f_env := env |} ])%list
         ∧ synthLog (playChunk_resume env i b w) = (synthLog w ++
           [ (at_index (c_chunks env) (i + 1), c_selectedVoice env) ])%list
     end)
  ∧ (∀ n f b, inflight w !! n = Some f → f_caller f = ActiveChunk →
     f_index f + 1 < len (c_chunks (f_env f)) →
     audioCacheRef w !! cacheKey (c_selectedVoice (f_env f)) (f_index f + 1) = None →
     inflight (step w (FetchSettled n (Resolved b))) = (delete n (inflight w) ++
       [ {| f_caller := PrefetchNext; f_index := f_index f + 1;
            f_env := f_env f |} ])%list
     ∧ synthLog (step w (FetchSettled n (Resolved b))) = (synthLog w ++
       [ (at_index (c_chunks (f_env f)) (f_index f + 1),
          c_selectedVoice (f_env f)) ])%list)
  ∧ (∀ n f s, inflight w !! n = Some f → f_caller f = PrefetchNext →
     step w (FetchSettled n s) =
       match s with
       | Resolved buffer =>
           set_audioCache
             (<[cacheKey (c_selectedVoice (f_env f)) (f_index f) := buffer]>
                (audioCacheRef w))
             (set_inflight (delete n (inflight w)) w)
       | Rejected _ => set_inflight (delete n (inflight w)) w
       end
     ∧ st (step w (FetchSettled n s)) = st w
     ∧ sounding (step w (FetchSettled n s)) = sounding w
     ∧ sourceNodeRef (step w (FetchSettled n s)) = sourceNodeRef w
     ∧ synthLog (step w (FetchSettled n s)) = synthLog w).
Proof.
  assert (Issue : ∀ w env i b, i + 1 < len (c_chunks env) →
     match audioCacheRef w !! cacheKey (c_selectedVoice env) (i + 1) with
     | Some _ =>
         inflight (playChunk_resume env i b w) = inflight w
         ∧ synthLog (playChunk_resume env i b w) = synthLog w
     | None =>
         inflight (playChunk_resume env i b w) = (inflight w ++
           [ {| f_caller := PrefetchNext; f_index := i + 1; f_env := env |} ])%list
         ∧ synthLog (playChunk_resume env i b w) = (synthLog w ++
           [ (at_index (c_chunks env) (i + 1), c_selectedVoice env) ])%list
     end).
  { intros w0 env i b Hi. unfold playChunk_resume. apply Z.ltb_lt in Hi. rewrite Hi.
    unfold getAudioBufferForChunk.
    destruct (stopAudio_fetches w0) as (Hfl & Hsl & Hca).
    cbn. rewrite Hca. destruct (audioCacheRef w0 !! _); cbn; by rewrite Hfl, Hsl. }
  split; [apply Issue|split].
  - intros n f b Hn Hf Hi Hmiss.
    rewrite (step_settle_active w n f b Hn Hf).
    set (w0 := set_audioCache _ _).
    pose proof (Issue w0 (f_env f) (f_index f) b Hi) as H.
    assert (Hlook : audioCacheRef w0
      !! cacheKey (c_selectedVoice (f_env f)) (f_index f + 1) = None).
    { subst w0. cbn. rewrite lookup_insert_ne; [done|].
      intros E. apply cacheKey_index_inj in E. lia. }
    rewrite Hlook in H. exact H.
  - intros n f s Hn Hf.
    assert (E : dispatch (FetchSettled n s) w =
      match s with
      | Resolved buffer =>
          set_audioCache
            (<[cacheKey (c_selectedVoice (f_env f)) (f_index f) := buffer]>
               (audioCacheRef w))
            (set_inflight (delete n (inflight w)) w)
      | Rejected _ => set_inflight (delete n (inflight w)) w
      end).
    { cbn. rewrite Hn. unfold settle. rewrite Hf. by destruct s. }
    rewrite step_idle; rewrite E; [|destruct s; apply same_deps_refl].
    by destruct s.
Qed.

End Engine.

(** * The engine on concrete sessions *)

(** ** Late results *)

(** C1.  The code has no staleness guard.  Four chunks are read with
    voice Puck and the user skips to index 2, so fetches for (Puck, 0),
    (Puck, 1) and (Puck, 2) are pending; the user then changes the voice
    to Charon and presses next: the state is voice Charon, index 3,
    playing, nothing sounding, a fetch for (Charon, 3) pending.  When the
    fetch for (Puck, 2) now resolves, its buffer is started at once and
    [isLoading] is cleared, although neither the voice nor the index
    matches; it even issues a prefetch for (Puck, 3). *)
Theorem C1_stale_fetch_starts_playback :
  let w := run sampleSplit mount
    [TextChange "A. B. C. D."; PlayPause; Next; Next;
     VoiceChange "Charon"; Next] in
  let w' := step sampleSplit w (FetchSettled 2 (Resolved 7%nat)) in
  (pending w = [(ActiveChunk, "Puck", 0); (ActiveChunk, "Puck", 1);
                (ActiveChunk, "Puck", 2); (ActiveChunk, "Charon", 3)]
   ∧ selectedVoice (st w) = "Charon" ∧ activeChunkIndex (st w) = 3
   ∧ isPlaying (st w) = true ∧ isLoading (st w) = true ∧ heard w = [])
  ∧ (heard w' = [(0%nat, 7%nat, 2)]
     ∧ selectedVoice (st w') = "Charon" ∧ activeChunkIndex (st w') = 3
     ∧ isLoading (st w') = false
     ∧ pending w' = [(ActiveChunk, "Puck", 0); (ActiveChunk, "Puck", 1);
                     (ActiveChunk, "Charon", 3); (PrefetchNext, "Puck", 3)]).
Proof. vm_compute. repeat split; reflexivity. Qed.

(** A paused fetch is no better: pausing while chunk 0 loads does not
    keep its buffer from being started when it arrives. *)
Lemma paused_fetch_starts_playback :
  let w := run sampleSplit mount [TextChange "A. B."; PlayPause; PlayPause] in
  isPlaying (st w) = false
  ∧ heard (step sampleSplit w (FetchSettled 0 (Resolved 7%nat))) = [(0%nat, 7%nat, 0)].
Proof. vm_compute. by split. Qed.

(** ** Auto-advance *)

(** The guard of [onended] compares the [activeChunkIndex] captured by
    the memoised [playChunk] with the index being played: when they
    differ the notification is dropped. *)
Lemma onended_dropped (s : Source) (w : World) :
  c_activeChunkIndex (src_env s) ≠ src_index s → onended s w = w.
Proof. intros H. unfold onended. by rewrite bool_decide_eq_false_2. Qed.

(** C5.  Auto-advance works once and then stops.  Three chunks are read;
    chunk 0 plays to its end and the index advances to 1, whose buffer
    (prefetched) starts.  When chunk 1 plays to its end with
    [isPlaying = true] and a chunk 2 present, nothing happens: the index
    stays 1, [isPlaying] stays true, nothing sounds and no fetch for the
    active chunk is issued. *)
Theorem C5_auto_advance_stops_after_one_chunk :
  let w0 := run sampleSplit mount
    [TextChange "A. B. C."; PlayPause; FetchSettled 0 (Resolved 10%nat);
     FetchSettled 0 (Resolved 11%nat)] in
  let w1 := step sampleSplit w0 (SourceEnded 0) in
  let w2 := step sampleSplit w1 (SourceEnded 1) in
  (heard w0 = [(0%nat, 10%nat, 0)] ∧ activeChunkIndex (st w0) = 0)
  ∧ (heard w1 = [(1%nat, 11%nat, 1)] ∧ activeChunkIndex (st w1) = 1
     ∧ isPlaying (st w1) = true ∧ len (chunks (st w1)) = 3)
  ∧ (heard w2 = [] ∧ activeChunkIndex (st w2) = 1
     ∧ isPlaying (st w2) = true ∧ st w2 = st w1
     ∧ pending w2 = [(PrefetchNext, "Puck", 2)]).
Proof. vm_compute. repeat split; reflexivity. Qed.

(** ** Stale cache entries *)

(** C2.  The code does not keep a stale entry out of the cache that a
    new reading session finds.  "A." is being read and its fetch is
    pending when the user returns to edit mode and types "B."; the cache
    has been emptied by then.  The pending fetch now resolves and writes
    the cache under "Puck-0", in edit mode.  Starting to read "B." does
    not empty the cache: chunk 0 of the new text is served from the stale
    entry without any call to [generateSpeech], and the buffer of "A." is
    what sounds. *)
Theorem C2_late_fetch_leaves_a_stale_cache_entry :
  let w0 := run sampleSplit mount
    [TextChange "A."; PlayPause; ModeChange edit; TextChange "B."] in
  let w := step sampleSplit w0 (FetchSettled 0 (Resolved 7%nat)) in
  let w' := step sampleSplit w PlayPause in
  (mode (st w0) = edit ∧ map_to_list (audioCacheRef w0) = []
   ∧ pending w0 = [(ActiveChunk, "Puck", 0)])
  ∧ (mode (st w) = edit ∧ audioCacheRef w !! cacheKey "Puck" 0 = Some 7%nat)
  ∧ (mode (st w') = read ∧ chunks (st w') = ["B."]
     ∧ activeChunkIndex (st w') = 0
     ∧ audioCacheRef (dispatch sampleSplit PlayPause w) !! cacheKey "Puck" 0
       = Some 7%nat
     ∧ synthLog w' = [(Some "A.", "Puck")]
     ∧ heard w' = [(1%nat, 7%nat, 0)]).
Proof. vm_compute. repeat split; reflexivity. Qed.

(** C6, as stated, fails.  While the prefetch for (Puck, 1) is pending,
    next makes [playChunk] resolve (Puck, 1) as well: [generateSpeech] is
    called a second time for the same key although the cache was never
    invalidated, and when both have settled the entry written by the
    first has been overwritten by the second. *)
Lemma C6_counterexample :
  let w := run sampleSplit mount
    [TextChange "A. B."; PlayPause; FetchSettled 0 (Resolved 10%nat); Next] in
  let w1 := step sampleSplit w (FetchSettled 0 (Resolved 11%nat)) in
  let w2 := step sampleSplit w1 (FetchSettled 0 (Resolved 12%nat)) in
  pending w = [(PrefetchNext, "Puck", 1); (ActiveChunk, "Puck", 1)]
  ∧ synthLog w = [(Some "A.", "Puck"); (Some "B.", "Puck"); (Some "B.", "Puck")]
  ∧ audioCacheRef w1 !! cacheKey "Puck" 1 = Some 11%nat
  ∧ audioCacheRef w2 !! cacheKey "Puck" 1 = Some 12%nat.
Proof. vm_compute. repeat split; reflexivity. Qed.

(** C9, as stated, fails: with a splitter that yields no chunk for the
    text "hello", play/pause sets no error message. *)
Lemma C9_counterexample :
  let split := λ _ : string, @nil string in
  let w := run split mount [TextChange "hello"] in
  trim (text (st w)) ≠ "" ∧ mode (st w) = edit ∧ split (text (st w)) = []
  ∧ error (st (step split w PlayPause)) = None.
Proof. vm_compute. split_and!; try reflexivity. discriminate. Qed.

(** ** The theorems at concrete sessions *)

Lemma X24_witness :
  let w := run sampleSplit mount [TextChange "A. B."] in
  let r := run sampleSplit mount [TextChange "A. B."; PlayPause] in
  ("Kore" ≠ selectedVoice (st w) ∧ mode (st w) = edit
   ∧ trim (text (st w)) ≠ "" ∧ sampleSplit (text (st w)) ≠ []
   ∧ "A. B. C." ≠ text (st w) ∧ mode (st r) = read)
  ∧ audioCacheRef (step sampleSplit w (VoiceChange "Kore")) = ∅
  ∧ activeChunkIndex (st (step sampleSplit w PlayPause)) = 0
  ∧ audioCacheRef (step sampleSplit w PlayPause) = audioCacheRef w
  ∧ audioCacheRef (step sampleSplit w (TextChange "A. B. C.")) = ∅
  ∧ audioCacheRef (step sampleSplit r (ModeChange edit)) = ∅.
Proof.
  intros w r.
  assert (H : "Kore" ≠ selectedVoice (st w) ∧ mode (st w) = edit
   ∧ trim (text (st w)) ≠ "" ∧ sampleSplit (text (st w)) ≠ []
   ∧ "A. B. C." ≠ text (st w) ∧ mode (st r) = read).
  { vm_compute. split_and!; try reflexivity; discriminate. }
  split; [exact H|].
  destruct H as (Hv & Hm & Hb & Hs & Ht & Hr).
  destruct (X24_where_the_cache_is_emptied sampleSplit w) as (V & S & _ & T).
  destruct (X24_where_the_cache_is_emptied sampleSplit r) as (_ & _ & E & _).
  destruct (V "Kore" Hv) as (Vc & _).
  destruct (S Hm Hb Hs) as (_ & _ & Si & Sc).
  split_and!; [exact Vc|exact Si|exact Sc|exact (T "A. B. C." Hm Ht)|exact (E Hr)].
Defined.

Lemma C4_witness :
  let w := run sampleSplit mount [TextChange "A. B. C."; PlayPause] in
  let cmds := [Next; Next; Next; Prev; Prev; Prev; Prev; Next] in
  (Forall (λ e, e = Next ∨ e = Prev) cmds
   ∧ 0 ≤ activeChunkIndex (st w) < len (chunks (st w)))
  ∧ (chunks (st (run sampleSplit w cmds)) = chunks (st w)
     ∧ 0 ≤ activeChunkIndex (st (run sampleSplit w cmds)) < len (chunks (st w)))
  ∧ (activeChunkIndex (st w) = len (chunks (st w)) - 1 → step sampleSplit w Next = w)
  ∧ (activeChunkIndex (st w) = 0 → step sampleSplit w Prev = w).
Proof.
  intros w cmds.
  assert (H : Forall (λ e, e = Next ∨ e = Prev) cmds
   ∧ 0 ≤ activeChunkIndex (st w) < len (chunks (st w))).
  { split; [|vm_compute; split; [discriminate|reflexivity]].
    subst cmds. repeat (apply Forall_cons_2; [by (left + right)|]). apply Forall_nil_2. }
  split; [exact H|].
  exact (C4_seek_stays_in_bounds sampleSplit w cmds (proj1 H) (proj2 H)).
Defined.

Lemma C6_witness :
  let w := run sampleSplit mount
    [TextChange "A. B."; PlayPause; FetchSettled 0 (Resolved 10%nat)] in
  let env := playChunkEnv w in
  let f := {| f_caller := PrefetchNext; f_index := 1; f_env := env |} in
  audioCacheRef w !! cacheKey (c_selectedVoice env) 0 = Some 10%nat
  ∧ getAudioBufferForChunk env ActiveChunk 0 w = (Some 10%nat, w)
  ∧ getAudioBufferForChunk (f_env f) ActiveChunk (f_index f)
      (settle f (Resolved 11%nat) w) = (Some 11%nat, settle f (Resolved 11%nat) w).
Proof.
  intros w env f.
  assert (H : audioCacheRef w !! cacheKey (c_selectedVoice env) 0 = Some 10%nat)
    by (vm_compute; reflexivity).
  split; [exact H|].
  exact (C6_cached_key_is_not_synthesised_again w env ActiveChunk 0 10%nat f 11%nat H).
Defined.

Lemma C7_witness :
  let w := run sampleSplit mount [TextChange "A. B."; PlayPause] in
  let f := {| f_caller := ActiveChunk; f_index := 0; f_env := playChunkEnv w |} in
  let w' := step sampleSplit w (FetchSettled 0 (Rejected "quota exceeded")) in
  (inflight w !! 0%nat = Some f ∧ f_caller f = ActiveChunk)
  ∧ error (st w') = Some ("Failed to load audio. " +:+ "quota exceeded")
  ∧ isLoading (st w') = false
  ∧ isPlaying (st w') = false
  ∧ inflight w' = delete 0%nat (inflight w)
  ∧ synthLog w' = synthLog w.
Proof.
  intros w f w'.
  assert (H : inflight w !! 0%nat = Some f ∧ f_caller f = ActiveChunk)
    by (vm_compute; split; reflexivity).
  split; [exact H|].
  exact (C7_fetch_error_halts_playback sampleSplit w 0 f "quota exceeded"
           (proj1 H) (proj2 H)).
Defined.

Lemma C8_witness :
  let w := run sampleSplit mount [TextChange "A. B. C."; PlayPause] in
  let f := {| f_caller := ActiveChunk; f_index := 0; f_env := playChunkEnv w |} in
  let w' := step sampleSplit w (FetchSettled 0 (Resolved 10%nat)) in
  let p := {| f_caller := PrefetchNext; f_index := f_index f + 1;
              f_env := f_env f |} in
  let s := Rejected "network down" in
  (pending w = [(ActiveChunk, "Puck", 0)]
   ∧ inflight w !! 0%nat = Some f ∧ f_caller f = ActiveChunk
   ∧ f_index f + 1 < len (c_chunks (f_env f))
   ∧ audioCacheRef w !! cacheKey (c_selectedVoice (f_env f)) (f_index f + 1) = None
   ∧ inflight w' !! 0%nat = Some p ∧ f_caller p = PrefetchNext)
  ∧ inflight w' = (delete 0%nat (inflight w) ++ [p])%list
  ∧ synthLog w' = (synthLog w ++
      [ (at_index (c_chunks (f_env f)) (f_index f + 1),
         c_selectedVoice (f_env f)) ])%list
  ∧ st (step sampleSplit w' (FetchSettled 0 s)) = st w'
  ∧ sounding (step sampleSplit w' (FetchSettled 0 s)) = sounding w'.
Proof.
  intros w f w' p s.
  assert (H : pending w = [(ActiveChunk, "Puck", 0)]
   ∧ inflight w !! 0%nat = Some f ∧ f_caller f = ActiveChunk
   ∧ f_index f + 1 < len (c_chunks (f_env f))
   ∧ audioCacheRef w !! cacheKey (c_selectedVoice (f_env f)) (f_index f + 1) = None
   ∧ inflight w' !! 0%nat = Some p ∧ f_caller p = PrefetchNext) by evaluate.
  split; [exact H|].
  destruct H as (_ & Hn & Hf & Hi & Hmiss & Hp & Hpc).
  destruct (C8_prefetch_only_writes_cache sampleSplit w) as (_ & Start & _).
  destruct (C8_prefetch_only_writes_cache sampleSplit w') as (_ & _ & Settle).
  destruct (Start 0%nat f 10%nat Hn Hf Hi Hmiss) as (Hin & Hlog).
  destruct (Settle 0%nat p s Hp Hpc) as (_ & Hst & Hso & _).
  split; [exact Hin|]. split; [exact Hlog|]. split; [exact Hst|exact Hso].
Defined.

Lemma C9_witness :
  let split := λ _ : string, @nil string in
  let w := run split mount [TextChange "hello"] in
  (trim (text (st w)) ≠ "" ∧ mode (st w) = edit ∧ split (text (st w)) = [])
  ∧ step split w PlayPause = w.
Proof.
  intros split w.
  assert (H : trim (text (st w)) ≠ "" ∧ mode (st w) = edit
              ∧ split (text (st w)) = []).
  { vm_compute. split_and!; try reflexivity. discriminate. }
  split; [exact H|].
  destruct H as (Hb & Hm & Hs).
  exact (C9_empty_split_is_silent_noop split w Hb Hm Hs).
Defined.

Lemma C10_witness :
  let blank := bytes [194; 160; 32; 227; 128; 128; 9]%nat in
  let w := run sampleSplit mount [TextChange blank] in
  (text (st w) = blank ∧ trim (text (st w)) = "")
  ∧ step sampleSplit w PlayPause = setError (Some "Please enter text to read.") w
  ∧ mode (st (step sampleSplit w PlayPause)) = edit.
Proof.
  intros blank w.
  assert (H : text (st w) = blank ∧ trim (text (st w)) = "") by evaluate.
  split; [exact H|].
  destruct (C10_blank_text_only_sets_error sampleSplit w (proj2 H)) as (E & _ & Hm & _).
  split; [exact E|]. rewrite Hm. vm_compute. reflexivity.
Defined.

(** ** [trim] on the white space of ECMAScript *)

(** Each WhiteSpace or LineTerminator code point alone trims to the empty
    string, and is stripped from both ends of ["a b"]. *)
Lemma trim_strips_white_space :
  Forall (λ l : list nat, trim (bytes l) = ""
               ∧ trim (bytes (l ++ [97; 32; 98]%nat ++ l)%list) = "a b")
    [ [9]; [10]; [11]; [12]; [13]; [32]; [194; 160]; [225; 154; 128];
      [226; 128; 128]; [226; 128; 129]; [226; 128; 130]; [226; 128; 131];
      [226; 128; 132]; [226; 128; 133]; [226; 128; 134]; [226; 128; 135];
      [226; 128; 136]; [226; 128; 137]; [226; 128; 138]; [226; 128; 168];
      [226; 128; 169]; [226; 128; 175]; [226; 129; 159]; [227; 128; 128];
      [239; 187; 191] ]%nat.
Proof. repeat (constructor; [by vm_compute|]). constructor. Qed.

(** Other code points stay: U+00E0, U+0085, U+200B, U+180E, U+2060,
    U+202E, U+00A1. *)
Lemma trim_keeps_other_code_points :
  Forall (λ l : list nat, trim (bytes l) = bytes l)
    [ [195; 160]; [194; 133]; [226; 128; 139]; [225; 160; 142];
      [226; 129; 160]; [226; 128; 174]; [194; 161] ]%nat.
Proof. repeat (constructor; [by vm_compute|]). constructor. Qed.

(** ** The further properties at concrete sessions *)

(** The voice ids of the catalogue contain no ["-"]. *)
Lemma VOICE_OPTIONS_have_no_dash :
  Forall (λ o, has_dash (id o) = false) VOICE_OPTIONS.
Proof. repeat constructor. Qed.

Lemma X2_witness :
  let es := [TextChange "A. B."; PlayPause; Next; ModeChange edit] in
  mode (st (run sampleSplit mount es)) = edit
  ∧ chunks (st (run sampleSplit mount es)) = [].
Proof.
  intros es.
  assert (H : mode (st (run sampleSplit mount es)) = edit) by evaluate.
  split; [exact H|].
  exact (proj2 (X2_edit_mode_has_no_chunks sampleSplit es) H).
Defined.

Lemma X4_witness :
  let es := [TextChange "A. B. C."; PlayPause] in
  isLoading (st (run sampleSplit mount es)) = true
  ∧ ∃ f, f ∈ inflight (run sampleSplit mount es) ∧ f_caller f = ActiveChunk.
Proof.
  intros es.
  assert (H : isLoading (st (run sampleSplit mount es)) = true) by evaluate.
  split; [exact H|].
  exact (X4_loading_flag_has_a_pending_fetch sampleSplit es H).
Defined.

Lemma X6_witness :
  let w := run sampleSplit mount
    [TextChange "A. B. C."; PlayPause; FetchSettled 0 (Resolved 10%nat)] in
  (single_source w ∧ mode (st w) = read ∧ trim (text (st w)) ≠ ""
   ∧ isPlaying (st w) = true)
  ∧ sounding (step sampleSplit w PlayPause) = [].
Proof.
  intros w.
  assert (H : single_source w ∧ mode (st w) = read ∧ trim (text (st w)) ≠ ""
   ∧ isPlaying (st w) = true) by evaluate.
  split; [exact H|].
  destruct H as (H1 & H2 & H3 & H4).
  exact (proj1 (proj2 (proj2 (X6_pause_stops_the_sound sampleSplit w H1 H2 H3 H4)))).
Defined.

Lemma X7_witness :
  let w := run sampleSplit mount
    [TextChange "A. B. C."; PlayPause; FetchSettled 0 (Resolved 10%nat);
     PlayPause] in
  (single_source w ∧ coherent w ∧ in_bounds (st w) ∧ mode (st w) = read
   ∧ trim (text (st w)) ≠ "" ∧ isPlaying (st w) = false
   ∧ audioCacheRef w !! cacheKey (selectedVoice (st w)) (activeChunkIndex (st w))
     = Some 10%nat)
  ∧ heard (step sampleSplit w PlayPause)
    = [(nextNode w, 10%nat, activeChunkIndex (st w))].
Proof.
  intros w.
  assert (H : single_source w ∧ coherent w ∧ in_bounds (st w) ∧ mode (st w) = read
   ∧ trim (text (st w)) ≠ "" ∧ isPlaying (st w) = false
   ∧ audioCacheRef w !! cacheKey (selectedVoice (st w)) (activeChunkIndex (st w))
     = Some 10%nat) by evaluate.
  split; [exact H|].
  destruct H as (H1 & H2 & H3 & H4 & H5 & H6 & H7).
  exact (proj1 (X7_play_starts_a_cached_chunk sampleSplit w 10%nat
                  H1 H2 H3 H4 H5 H6 H7)).
Defined.

Lemma X8_witness :
  let w := run sampleSplit mount
    [TextChange "A. B. C."; PlayPause; FetchSettled 0 (Rejected "quota")] in
  (coherent w ∧ in_bounds (st w) ∧ mode (st w) = read
   ∧ trim (text (st w)) ≠ "" ∧ isPlaying (st w) = false
   ∧ audioCacheRef w !! cacheKey (selectedVoice (st w)) (activeChunkIndex (st w))
     = None)
  ∧ isPlaying (st (step sampleSplit w PlayPause)) = true
  ∧ isLoading (st (step sampleSplit w PlayPause)) = true
  ∧ error (st (step sampleSplit w PlayPause)) = None.
Proof.
  intros w.
  assert (H : coherent w ∧ in_bounds (st w) ∧ mode (st w) = read
   ∧ trim (text (st w)) ≠ "" ∧ isPlaying (st w) = false
   ∧ audioCacheRef w !! cacheKey (selectedVoice (st w)) (activeChunkIndex (st w))
     = None) by evaluate.
  split; [exact H|].
  destruct H as (H1 & H2 & H3 & H4 & H5 & H6).
  destruct (X8_play_fetches_an_uncached_chunk sampleSplit w H1 H2 H3 H4 H5 H6)
    as (Hp & Hl & He & _).
  split; [exact Hp|split; [exact Hl|exact He]].
Defined.

Lemma X9_witness :
  let w := run sampleSplit mount
    [TextChange "A. B. C."; PlayPause; FetchSettled 0 (Resolved 10%nat)] in
  (single_source w ∧ coherent w ∧ mode (st w) = read
   ∧ 0 ≤ activeChunkIndex (st w) < len (chunks (st w)) - 1)
  ∧ activeChunkIndex (st (step sampleSplit w Next)) = activeChunkIndex (st w) + 1.
Proof.
  intros w.
  assert (H : single_source w ∧ coherent w ∧ mode (st w) = read
   ∧ 0 ≤ activeChunkIndex (st w) < len (chunks (st w)) - 1) by evaluate.
  split; [exact H|].
  destruct H as (H1 & H2 & H3 & H4).
  exact (proj1 (X9_next_plays_the_following_chunk sampleSplit w H1 H2 H3 H4)).
Defined.

Lemma X10_witness :
  let w := run sampleSplit mount
    [TextChange "A. B. C."; PlayPause; FetchSettled 0 (Resolved 10%nat); Next] in
  (single_source w ∧ coherent w ∧ mode (st w) = read
   ∧ 0 < activeChunkIndex (st w) < len (chunks (st w)))
  ∧ activeChunkIndex (st (step sampleSplit w Prev)) = activeChunkIndex (st w) - 1.
Proof.
  intros w.
  assert (H : single_source w ∧ coherent w ∧ mode (st w) = read
   ∧ 0 < activeChunkIndex (st w) < len (chunks (st w))) by evaluate.
  split; [exact H|].
  destruct H as (H1 & H2 & H3 & H4).
  exact (proj1 (X10_prev_plays_the_preceding_chunk sampleSplit w H1 H2 H3 H4)).
Defined.

Lemma X11_witness :
  let w := run sampleSplit mount
    [TextChange "A. B. C."; PlayPause; FetchSettled 0 (Resolved 10%nat)] in
  (single_source w ∧ mode (st w) = read)
  ∧ mode (st (step sampleSplit w (ModeChange edit))) = edit
  ∧ isPlaying (st (step sampleSplit w (ModeChange edit))) = false
  ∧ chunks (st (step sampleSplit w (ModeChange edit))) = [].
Proof.
  intros w.
  assert (H : single_source w ∧ mode (st w) = read) by evaluate.
  split; [exact H|].
  destruct H as (H1 & H2).
  destruct (X11_switching_to_edit_tears_down sampleSplit w H1 H2)
    as (Hm & Hp & Hc & _).
  split; [exact Hm|split; [exact Hp|exact Hc]].
Defined.

Lemma X12_witness :
  let w := run sampleSplit mount
    [TextChange "A. B. C."; PlayPause; FetchSettled 0 (Resolved 10%nat)] in
  (single_source w ∧ "Kore" ≠ selectedVoice (st w))
  ∧ sounding (step sampleSplit w (VoiceChange "Kore")) = [].
Proof.
  intros w.
  assert (H : single_source w ∧ "Kore" ≠ selectedVoice (st w)) by evaluate.
  split; [exact H|].
  destruct H as (H1 & H2).
  exact (proj1 (proj2 (X12_voice_change_interrupts sampleSplit w "Kore" H1 H2))).
Defined.

Lemma X13_witness :
  let w := run sampleSplit mount
    [TextChange "A. B. C."; PlayPause; FetchSettled 0 (Resolved 10%nat)] in
  let s := {| src_buffer := 10%nat; src_index := 0; src_env := playChunkEnv w |} in
  (sounding w = [(0%nat, s)]
   ∧ c_activeChunkIndex (src_env s) = src_index s
   ∧ c_isPlaying (src_env s) = true
   ∧ c_chunks (src_env s) = chunks (st w)
   ∧ coherent w ∧ mode (st w) = read ∧ isPlaying (st w) = true
   ∧ 0 ≤ activeChunkIndex (st w)
   ∧ activeChunkIndex (st w) + 1 < len (chunks (st w)))
  ∧ activeChunkIndex (st (step sampleSplit w (SourceEnded 0)))
    = activeChunkIndex (st w) + 1.
Proof.
  intros w s.
  assert (H : sounding w = [(0%nat, s)]
   ∧ c_activeChunkIndex (src_env s) = src_index s
   ∧ c_isPlaying (src_env s) = true
   ∧ c_chunks (src_env s) = chunks (st w)
   ∧ coherent w ∧ mode (st w) = read ∧ isPlaying (st w) = true
   ∧ 0 ≤ activeChunkIndex (st w)
   ∧ activeChunkIndex (st w) + 1 < len (chunks (st w))) by evaluate.
  split; [exact H|].
  destruct H as (H1 & H2 & H3 & H4 & H5 & H6 & H7 & H8 & H9).
  exact (proj1 (X13_end_of_chunk_advances_when_the_guard_holds sampleSplit w 0 s
                  H1 H2 H3 H4 H5 H6 H7 H8 H9)).
Defined.

Lemma X14_witness :
  let w := run sampleSplit mount
    [TextChange "A."; PlayPause; FetchSettled 0 (Resolved 10%nat)] in
  let s := {| src_buffer := 10%nat; src_index := 0; src_env := playChunkEnv w |} in
  (sounding w = [(0%nat, s)]
   ∧ c_activeChunkIndex (src_env s) = src_index s
   ∧ c_isPlaying (src_env s) = true
   ∧ len (c_chunks (src_env s)) ≤ activeChunkIndex (st w) + 1)
  ∧ isPlaying (st (step sampleSplit w (SourceEnded 0))) = false.
Proof.
  intros w s.
  assert (H : sounding w = [(0%nat, s)]
   ∧ c_activeChunkIndex (src_env s) = src_index s
   ∧ c_isPlaying (src_env s) = true
   ∧ len (c_chunks (src_env s)) ≤ activeChunkIndex (st w) + 1) by evaluate.
  split; [exact H|].
  destruct H as (H1 & H2 & H3 & H4).
  exact (proj1 (X14_end_of_last_chunk_stops_playing sampleSplit w 0 s H1 H2 H3 H4)).
Defined.

Lemma X15_witness :
  let w := run sampleSplit mount
    [TextChange "A. B. C."; PlayPause; FetchSettled 0 (Resolved 10%nat);
     FetchSettled 0 (Resolved 11%nat); SourceEnded 0] in
  let s := {| src_buffer := 11%nat; src_index := 1; src_env := playChunkEnv w |} in
  (sounding w = [(1%nat, s)]
   ∧ (c_activeChunkIndex (src_env s) ≠ src_index s
      ∨ c_isPlaying (src_env s) = false))
  ∧ step sampleSplit w (SourceEnded 1) = set_sounding [] w.
Proof.
  intros w s.
  assert (H : sounding w = [(1%nat, s)]
   ∧ (c_activeChunkIndex (src_env s) ≠ src_index s
      ∨ c_isPlaying (src_env s) = false)).
  { split; [by vm_compute|]. left. by vm_compute. }
  split; [exact H|].
  exact (X15_end_of_chunk_is_dropped_when_the_guard_fails sampleSplit w 1 s
           (proj1 H) (proj2 H)).
Defined.

Lemma X16_witness :
  let w := run sampleSplit mount [TextChange "A. B."; ModeChange read] in
  (single_source w ∧ mode (st w) = read ∧ chunks (st w) = []
   ∧ trim (text (st w)) ≠ "" ∧ isPlaying (st w) = false)
  ∧ isPlaying (st (step sampleSplit w PlayPause)) = true
  ∧ inflight (step sampleSplit w PlayPause) = inflight w.
Proof.
  intros w.
  assert (H : single_source w ∧ mode (st w) = read ∧ chunks (st w) = []
   ∧ trim (text (st w)) ≠ "" ∧ isPlaying (st w) = false) by evaluate.
  split; [exact H|].
  destruct H as (H1 & H2 & H3 & H4 & H5).
  destruct (X16_play_without_chunks_plays_nothing sampleSplit w H1 H2 H3 H4 H5)
    as (_ & Hp & _ & Hi & _).
  split; [exact Hp|exact Hi].
Defined.

Lemma X17_witness :
  let w := run sampleSplit mount [TextChange "A. B."; PlayPause] in
  mode (st w) = read
  ∧ step sampleSplit w (TextChange "Z.") = setText "Z." w.
Proof.
  intros w.
  assert (H : mode (st w) = read) by evaluate.
  split; [exact H|].
  exact (X17_text_change_in_read_mode_invalidates_nothing sampleSplit w "Z." H).
Defined.

Lemma X19_witness :
  (has_dash "Puck" = false ∧ has_dash "Puck" = false
   ∧ cacheKey "Puck" 3 = cacheKey "Puck" 3)
  ∧ "Puck" = "Puck" ∧ 3 = 3.
Proof.
  assert (H : has_dash "Puck" = false ∧ has_dash "Puck" = false
   ∧ cacheKey "Puck" 3 = cacheKey "Puck" 3) by evaluate.
  split; [exact H|].
  destruct H as (H1 & H2 & H3).
  exact (X19_cache_keys_do_not_collide "Puck" "Puck" 3 3 H1 H2 H3).
Defined.

Lemma X20_witness :
  let w := run sampleSplit mount [TextChange "A. B."; PlayPause] in
  let f := {| f_caller := ActiveChunk; f_index := 0; f_env := playChunkEnv w |} in
  inflight w !! 0%nat = Some f
  ∧ audioCacheRef (step sampleSplit w (FetchSettled 0 (Resolved 10%nat)))
    = <[cacheKey (c_selectedVoice (f_env f)) (f_index f) := 10%nat]>
        (audioCacheRef w).
Proof.
  intros w f.
  assert (H : inflight w !! 0%nat = Some f) by evaluate.
  split; [exact H|].
  exact (X20_a_fetch_writes_only_its_own_cache_entry sampleSplit w 0 f
           (Resolved 10%nat) H).
Defined.

Lemma X21_witness :
  let w := run sampleSplit mount [TextChange "A. B."; PlayPause; PlayPause] in
  let f := {| f_caller := ActiveChunk; f_index := 0;
              f_env := {| c_chunks := ["A."; "B."]; c_selectedVoice := "Puck";
                          c_isPlaying := true; c_activeChunkIndex := 0 |} |} in
  (single_source w ∧ inflight w !! 0%nat = Some f ∧ f_caller f = ActiveChunk)
  ∧ heard (step sampleSplit w (FetchSettled 0 (Resolved 10%nat)))
    = [(nextNode w, 10%nat, f_index f)].
Proof.
  intros w f.
  assert (H : single_source w ∧ inflight w !! 0%nat = Some f
              ∧ f_caller f = ActiveChunk) by evaluate.
  split; [exact H|].
  destruct H as (H1 & H2 & H3).
  exact (proj1 (X21_a_resolved_fetch_always_starts_its_buffer sampleSplit w 0 f
                  10%nat H1 H2 H3)).
Defined.

Lemma X22_witness :
  let w := run sampleSplit mount [TextChange "A. B."] in
  (single_source w ∧ mode (st w) = edit ∧ trim (text (st w)) ≠ ""
   ∧ sampleSplit (text (st w)) ≠ [])
  ∧ isPlaying (st (step sampleSplit w PlayPause)) = true
  ∧ error (st (step sampleSplit w PlayPause)) = None.
Proof.
  intros w.
  assert (H : single_source w ∧ mode (st w) = edit ∧ trim (text (st w)) ≠ ""
   ∧ sampleSplit (text (st w)) ≠ []) by evaluate.
  split; [exact H|].
  destruct H as (H1 & H2 & H3 & H4).
  destruct (X22_starting_to_read_resolves_the_first_chunk sampleSplit w H1 H2 H3 H4)
    as (Hp & He & _).
  split; [exact Hp|exact He].
Defined.

Lemma X23_witness :
  let w := run sampleSplit mount [TextChange "A. B."] in
  (mode (st w) = edit ∧ chunks (st w) = [])
  ∧ chunks (st (step sampleSplit w (ModeChange read))) = [].
Proof.
  intros w.
  assert (H : mode (st w) = edit ∧ chunks (st w) = []) by evaluate.
  split; [exact H|].
  destruct H as (H1 & H2).
  exact (proj1 (proj2 (X23_mode_switch_to_read_builds_no_chunks sampleSplit w H1 H2))).
Defined.
